(** * i.ai: command extraction and dispatch

    A shallow embedding of [IAIGrassAddon.extract_and_execute_commands]
    (file [i.ai.py]) and of the part of Python's [re] and [str] semantics
    that the method relies on.

    Text is modelled as [string], a sequence of 8-bit code points: the
    Latin-1 range of a Python [str].  On that range the character classes
    below are those of Python 3's [re] module for [str] patterns
    (Unicode matching is the default there).  A text with a code point
    above 255 is not a text of this development (see [text_of]); a
    property that holds within Latin-1 only says so. *)

From Stdlib Require Import Ascii String NArith Lia.
From stdpp Require Import base option list gmap strings.

Local Open Scope string_scope.
Local Open Scope list_scope.

(* ===================================================================== *)
(** ** Characters *)
(* ===================================================================== *)

Module Char.

Definition code (c : ascii) : N := N_of_ascii c.

Definition between (lo hi : N) (c : ascii) : bool :=
  ((lo <=? code c) && (code c <=? hi))%N.

(** [str.isspace] / [\s]: TAB..CR, FS..US, space, NEL and NBSP. *)
Definition is_space (c : ascii) : bool :=
  between 9 13 c || between 28 32 c || (code c =? 133)%N || (code c =? 160)%N.

(** [str.isalnum] on the Latin-1 range. *)
Definition is_alnum (c : ascii) : bool :=
  between 48 57 c || between 65 90 c || between 97 122 c
  || (code c =? 170)%N || between 178 179 c || (code c =? 181)%N
  || between 185 186 c || between 188 190 c
  || between 192 214 c || between 216 246 c || between 248 255 c.

(** [\w]: alphanumeric or underscore. *)
Definition is_word (c : ascii) : bool :=
  is_alnum c || (code c =? 95)%N.

(** Simple lower-case mapping, as used by [re.IGNORECASE]. *)
Definition lower (c : ascii) : ascii :=
  if between 65 90 c || (between 192 222 c && negb (code c =? 215)%N)
  then ascii_of_N (code c + 32)
  else c.

Definition eqb (a b : ascii) : bool := (code a =? code b)%N.

(** A pattern literal [l] against a text character [c] under
    [re.IGNORECASE]: the lower-case forms agree.  This is the whole rule
    within Latin-1.  Beyond it the library lets a few more characters
    match a letter ([U+017F] matches [s], [U+0130] and [U+0131] match [i],
    [U+212A] matches [k]); an [ascii] cannot hold them. *)
Definition ieqb (l c : ascii) : bool := eqb (lower l) (lower c).

Definition newline : ascii := ascii_of_N 10.

End Char.

(* ===================================================================== *)
(** ** The [str] methods the method calls *)
(* ===================================================================== *)

Module Str.

(** [s[:n]] *)
Fixpoint take (n : nat) (s : string) : string :=
  match n, s with
  | S n', String c s' => String c (take n' s')
  | _, _ => EmptyString
  end.

(** [s.startswith(p)] *)
Definition startswith (s p : string) : bool := String.prefix p s.

(** [s.startswith((p1, ..., pn))] *)
Definition startswith_any (s : string) (ps : list string) : bool :=
  existsb (startswith s) ps.

(** [sub in s] *)
Fixpoint contains (sub s : string) : bool :=
  String.prefix sub s
  || match s with
     | EmptyString => false
     | String _ s' => contains sub s'
     end.

Definition snoc (s : string) (c : ascii) : string :=
  String.append s (String c EmptyString).

(** [s.split()]: the maximal runs of non-whitespace characters.  [tok]
    is the run being read. *)
Fixpoint split_go (tok : string) (s : string) : list string :=
  match s with
  | EmptyString =>
      match tok with EmptyString => [] | _ => [tok] end
  | String c s' =>
      if Char.is_space c
      then match tok with
           | EmptyString => split_go "" s'
           | _ => tok :: split_go "" s'
           end
      else split_go (snoc tok c) s'
  end.

Definition split (s : string) : list string := split_go "" s.

(** [s.split(sep, 1)] for a one-character separator: cut at the first
    [sep], or leave [s] whole when there is none. *)
Fixpoint split1_go (sep : ascii) (before : string) (s : string)
  : list string :=
  match s with
  | EmptyString => [before]
  | String c s' =>
      if Char.eqb c sep then [before; s']
      else split1_go sep (snoc before c) s'
  end.

Definition split1 (sep : ascii) (s : string) : list string :=
  split1_go sep "" s.

End Str.

(* ===================================================================== *)
(** ** Regular expressions: the fragment used by [command_patterns] *)
(* ===================================================================== *)

Module Re.

Inductive regex : Type :=
| Eps                          (* the empty pattern *)
| Lit (c : ascii)              (* a literal character *)
| WordChar                     (* \w *)
| SpaceChar                    (* \s *)
| NonSpace                     (* [^\s\n] *)
| Boundary                     (* \b *)
| Seq (r1 r2 : regex)
| Alt (r1 r2 : regex)          (* r1|r2, r1 tried first *)
| Star (r : regex)             (* r*, greedy *)
| Group (r : regex).           (* ( r ), the capturing group *)

(** r+, greedy *)
Definition Plus (r : regex) : regex := Seq r (Star r).

Fixpoint lits (s : string) : regex :=
  match s with
  | EmptyString => Eps
  | String c EmptyString => Lit c
  | String c s' => Seq (Lit c) (lits s')
  end.

(** Whether a pattern item accepts one character (flags
    [re.IGNORECASE | re.MULTILINE]; only literals are case-folded). *)
Definition accepts (r : regex) (c : ascii) : bool :=
  match r with
  | Lit l => Char.ieqb l c
  | WordChar => Char.is_word c
  | SpaceChar => Char.is_space c
  | NonSpace => negb (Char.is_space c || Char.eqb c Char.newline)
  | _ => false
  end.

(** The matcher's position in the text: the character just before the
    cursor (for [\b]), the text from the cursor on, and the text captured
    by the group, once it has closed. *)
Record mstate : Type := MState {
  prev : option ascii;
  rest : string;
  captured : option string
}.

Definition is_word_at (o : option ascii) : bool :=
  match o with Some c => Char.is_word c | None => false end.

Definition peek (s : string) : option ascii :=
  match s with String c _ => Some c | EmptyString => None end.

(** What was consumed between two cursor positions of the same text. *)
Definition consumed (from to : string) : string :=
  Str.take (String.length from - String.length to) from.

(** Greedy repetition of [body]: one more round first, the continuation
    [k] only when that fails.  A round that consumes nothing is given
    up (as Python does), so at most as many rounds as there are
    characters left can succeed: [n] bounds them. *)
Fixpoint star_loop
  (body : (mstate -> option mstate) -> mstate -> option mstate)
  (k : mstate -> option mstate) (n : nat) (st : mstate) {struct n}
  : option mstate :=
  match n with
  | O => k st
  | S n' =>
      match body
              (fun st' =>
                 if (String.length (rest st') <? String.length (rest st))%nat
                 then star_loop body k n' st' else None) st with
      | Some res => Some res
      | None => k st
      end
  end.

(** Backtracking matcher in continuation-passing style: [run r k st]
    matches [r] at [st] and hands every way of doing so to [k], in the
    priority order of Python's engine (first alternative first, longest
    repetition first), until [k] accepts one. *)
Fixpoint run (r : regex) (k : mstate -> option mstate) (st : mstate)
  {struct r} : option mstate :=
  match r with
  | Eps => k st
  | Lit _ | WordChar | SpaceChar | NonSpace =>
      match rest st with
      | String c s' =>
          if accepts r c then k (MState (Some c) s' (captured st)) else None
      | EmptyString => None
      end
  | Boundary =>
      if xorb (is_word_at (prev st)) (is_word_at (peek (rest st)))
      then k st else None
  | Seq r1 r2 => run r1 (run r2 k) st
  | Alt r1 r2 =>
      match run r1 k st with
      | Some res => Some res
      | None => run r2 k st
      end
  | Star r1 => star_loop (run r1) k (String.length (rest st)) st
  | Group r1 =>
      run r1 (fun st' =>
                k (MState (prev st') (rest st')
                     (Some (consumed (rest st) (rest st'))))) st
  end.

(** One match attempt at the cursor. *)
Definition match_here (r : regex) (p : option ascii) (s : string)
  : option mstate :=
  run r Some (MState p s None).

(** The string [findall] reports for a match of a pattern with one
    group: the group's text (empty if the group took no part). *)
Definition group1 (m : mstate) : string :=
  match captured m with Some g => g | None => "" end.

(** [re.findall(pattern, text)]: scan left to right; at each position not
    inside the previous match try the pattern; after a match resume at
    its end.  [skip] counts the characters of the previous match still
    to be passed over. *)
Fixpoint scan (r : regex) (skip : nat) (p : option ascii) (s : string)
  : list string :=
  let here :=
    match skip with
    | O => match_here r p s
    | S _ => None
    end in
  match s with
  | EmptyString =>
      match here with Some m => [group1 m] | None => [] end
  | String c s' =>
      match here with
      | Some m =>
          group1 m ::
            scan r (String.length s - String.length (rest m) - 1) (Some c) s'
      | None => scan r (Nat.pred skip) (Some c) s'
      end
  end.

Definition findall (r : regex) (text : string) : list string :=
  scan r 0 None text.

End Re.

(* ===================================================================== *)
(** ** [extract_and_execute_commands], first half: extraction *)
(* ===================================================================== *)

Import Re.

(** (?:\s+[^\s\n]+)* *)
Definition arguments : regex :=
  Star (Seq (Plus SpaceChar) (Plus NonSpace)).

(** \b(<prefix>\.\w+(?:\s+[^\s\n]+)* ) *)
Definition module_pattern (prefix : string) : regex :=
  Seq Boundary
    (Group (Seq (lits prefix) (Seq (Lit ".") (Seq (Plus WordChar) arguments)))).

Definition linux_tools : list string :=
  ["wget"; "curl"; "unzip"; "tar"; "gzip"; "awk"; "sed"; "grep"].

Definition alternatives (names : list string) : regex :=
  match names with
  | [] => Eps
  | n :: ns => fold_left (fun r m => Alt r (lits m)) ns (lits n)
  end.

(** \b(gdal\w+(?:\s+[^\s\n]+)* ) *)
Definition gdal_pattern : regex :=
  Seq Boundary (Group (Seq (lits "gdal") (Seq (Plus WordChar) arguments))).

(** \b(wget|curl|unzip|tar|gzip|awk|sed|grep)(?:\s+[^\s\n]+)* *)
Definition linux_pattern : regex :=
  Seq Boundary (Seq (Group (alternatives linux_tools)) arguments).

Definition command_patterns : list regex :=
  [ module_pattern "g";    (* GRASS commands *)
    module_pattern "r";    (* Raster commands *)
    module_pattern "v";    (* Vector commands *)
    module_pattern "i";    (* Imagery commands *)
    module_pattern "db";   (* Database commands *)
    module_pattern "t";    (* Temporal commands *)
    module_pattern "m";    (* Misc commands *)
    gdal_pattern;          (* GDAL commands *)
    linux_pattern ].       (* Linux tools *)

(** [x in l] for a list of strings. *)
Definition mem (x : string) (l : list string) : bool :=
  existsb (String.eqb x) l.

(** The inner loop: [for match in matches: if match not in
    executed_commands: executed_commands.append(match)]. *)
Definition add_matches (executed_commands matches : list string) : list string :=
  fold_left
    (fun acc m => if mem m acc then acc else acc ++ [m])
    matches executed_commands.

(** The outer loop over [command_patterns], starting from the empty list. *)
Definition extract (response : string) : list string :=
  fold_left
    (fun acc pattern => add_matches acc (findall pattern response))
    command_patterns [].

(* ===================================================================== *)
(** ** Effects: the host application, the operating system, exceptions *)
(* ===================================================================== *)

(** Exceptions (subclasses of [Exception]) that can reach the [except]
    clause, each with the text [str(e)] gives. *)
Inductive exception : Type :=
| IndexError (msg : string)          (* [parts[0]] on an empty list *)
| ValueError (msg : string)          (* [key, value = ...] on a wrong length *)
| CalledModuleError (msg : string)   (* the host reports a failed module *)
| TimeoutExpired (msg : string)      (* [subprocess.run] ran out of time *)
| OSError (msg : string)             (* [subprocess.run] could not start *)
| OtherException (msg : string).

Definition str_of (e : exception) : string :=
  match e with
  | IndexError m | ValueError m | CalledModuleError m
  | TimeoutExpired m | OSError m | OtherException m => m
  end.

(** What a call can raise.  A clause [except Exception] handles the
    instances of [Exception] and nothing else: [SystemExit] and
    [KeyboardInterrupt] derive from [BaseException] and pass through it.
    [gs.read_command] ends the process with [SystemExit], instead of
    raising, when its keyword [errors] asks for it, and the dispatch loop
    takes the keywords from the text of the candidate. *)
Inductive base_exception : Type :=
| AnException (e : exception)
| SystemExit (status : Z)
| KeyboardInterrupt.

(** [isinstance(b, Exception)] *)
Definition is_exception (b : base_exception) : bool :=
  match b with
  | AnException _ => true
  | SystemExit _ | KeyboardInterrupt => false
  end.

(** [subprocess.CompletedProcess] with [capture_output=True, text=True]. *)
Record CompletedProcess : Type := Completed {
  returncode : Z;
  stdout : string;
  stderr : string
}.

(** The two collaborators as the dispatch loop may meet them.  Each call
    may change the outside world and returns, raises an [Exception], or
    raises what is none. *)
Class Surroundings (World : Type) : Type := {
  (** [gs.read_command(module, **params)] *)
  call_read_command :
    string -> gmap string string -> World
    -> World * (base_exception + string);
  (** [subprocess.run(args, capture_output=True, text=True, timeout=t)] *)
  call_subprocess_run :
    list string -> nat -> World
    -> World * (base_exception + CompletedProcess)
}.

(** The two collaborators when nothing ends the process and nothing
    interrupts it: each call either returns or raises an exception of the
    kinds above, an [Exception]. *)
Class Host (World : Type) : Type := {
  (** [gs.read_command(module, **params)] *)
  gs_read_command :
    string -> gmap string string -> World -> World * (exception + string);
  (** [subprocess.run(args, capture_output=True, text=True, timeout=t)] *)
  subprocess_run :
    list string -> nat -> World -> World * (exception + CompletedProcess)
}.

Definition as_exception {A : Type} (r : exception + A) : base_exception + A :=
  match r with
  | inl e => inl (AnException e)
  | inr a => inr a
  end.

(** Such a host is one kind of surroundings. *)
#[global] Instance host_surroundings {World : Type} `{Host World}
  : Surroundings World := {|
  call_read_command module params w :=
    match gs_read_command module params w with
    | (w', r) => (w', as_exception r)
    end;
  call_subprocess_run args timeout w :=
    match subprocess_run args timeout w with
    | (w', r) => (w', as_exception r)
    end
|}.

(** What the method prints, and the calls it makes, in order. *)
Inductive event : Type :=
| MsgExecuting (n : nat)                  (* message: Executing {n} commands: *)
| MsgNumbered (i : nat) (cmd : string)    (* message: {i}. {cmd} *)
| MsgSuccess                              (* message: Success: *)
| MsgOutput (shown : string)              (* message: the output, cut *)
| WarnFailed (err : string)               (* warning: Failed: {result.stderr} *)
| WarnUnknown (cmd : string)              (* warning: Unknown command type: {cmd} *)
| WarnError (cmd : string) (e : string)   (* warning: Error executing {cmd}: {e} *)
| CallReadCommand (module : string) (params : gmap string string)
| CallSubprocessRun (args : list string) (timeout : nat).

Section Effects.

Context {World : Type}.

(** A computation: it transforms the world, emits events, and returns a
    value or raises. *)
Definition M (A : Type) : Type :=
  World -> World * list event * (base_exception + A).

Definition ret {A} (a : A) : M A :=
  fun w => (w, [], inr a).

Definition raise {A} (e : exception) : M A :=
  fun w => (w, [], inl (AnException e)).

Definition bind {A B} (m : M A) (f : A -> M B) : M B :=
  fun w =>
    match m w with
    | (w1, l1, inl e) => (w1, l1, inl e)
    | (w1, l1, inr a) =>
        match f a w1 with
        | (w2, l2, r) => (w2, l1 ++ l2, r)
        end
    end.

(** [try: m  except Exception as e: h e] *)
Definition try_except {A} (m : M A) (h : exception -> M A) : M A :=
  fun w =>
    match m w with
    | (w1, l1, inr a) => (w1, l1, inr a)
    | (w1, l1, inl (AnException e)) =>
        match h e w1 with
        | (w2, l2, r) => (w2, l1 ++ l2, r)
        end
    | (w1, l1, inl b) => (w1, l1, inl b)
    end.

Definition emit (ev : event) : M unit :=
  fun w => (w, [ev], inr tt).

(** [for x in l: body x] *)
Fixpoint for_each {A} (l : list A) (body : A -> M unit) : M unit :=
  match l with
  | [] => ret tt
  | x :: l' => bind (body x) (fun _ => for_each l' body)
  end.

End Effects.

Declare Scope m_scope.
Delimit Scope m_scope with M.
Notation "x <- m ;; k" := (bind m (fun x => k))
  (at level 100, m at next level, right associativity) : m_scope.
Notation "m ;; k" := (bind m (fun _ => k))
  (at level 100, right associativity) : m_scope.

(* ===================================================================== *)
(** ** [extract_and_execute_commands], second half: dispatch *)
(* ===================================================================== *)

Definition grass_prefixes : list string :=
  ["g."; "r."; "v."; "i."; "db."; "t."; "m."; "d."; "ps."; "r3."].

(** [cmd.startswith(('g.', 'r.', ...))] *)
Definition is_grass_command (cmd : string) : bool :=
  Str.startswith_any cmd grass_prefixes.

(** [cmd.startswith('gdal') or any(tool in cmd for tool in [...])] *)
Definition is_system_command (cmd : string) : bool :=
  Str.startswith cmd "gdal"
  || existsb (fun tool => Str.contains tool cmd) linux_tools.

(** [out[:500] + "..." if len(out) > 500 else out] *)
Definition shorten (out : string) : string :=
  if (500 <? String.length out)%nat
  then String.append (Str.take 500 out) "..."
  else out.

(** [enumerate(l, start)] *)
Fixpoint enumerate {A} (start : nat) (l : list A) : list (nat * A) :=
  match l with
  | [] => []
  | x :: l' => (start, x) :: enumerate (S start) l'
  end.

Section Dispatch.

Context {World : Type} {surroundings : Surroundings World}.
Local Open Scope m_scope.

(** [parts[0]] *)
Definition first_item (parts : list string) : M (World := World) string :=
  match parts with
  | x :: _ => ret x
  | [] => raise (IndexError "list index out of range")
  end.

(** [key, value = l] *)
Definition unpack2 (l : list string) : M (World := World) (string * string) :=
  match l with
  | [k; v] => ret (k, v)
  | [] | [_] => raise (ValueError "not enough values to unpack")
  | _ => raise (ValueError "too many values to unpack")
  end.

(** The loop [for part in parts[1:]] that fills [params]. *)
Fixpoint parse_params (parts : list string) (params : gmap string string)
  : M (World := World) (gmap string string) :=
  match parts with
  | [] => ret params
  | part :: parts' =>
      if Str.contains "=" part then
        kv <- unpack2 (Str.split1 "=" part) ;;
        parse_params parts' (<[kv.1 := kv.2]> params)
      else
        parse_params parts' (<["input" := part]> params)
  end.

Definition read_command (module : string) (params : gmap string string)
  : M string :=
  fun w =>
    match call_read_command module params w with
    | (w', r) => (w', [CallReadCommand module params], r)
    end.

Definition run_subprocess (args : list string) (timeout : nat)
  : M CompletedProcess :=
  fun w =>
    match call_subprocess_run args timeout w with
    | (w', r) => (w', [CallSubprocessRun args timeout], r)
    end.

(** The body of the [try] statement. *)
Definition try_body (cmd : string) : M unit :=
  if is_grass_command cmd then
    (* GRASS command *)
    let parts := Str.split cmd in
    module <- first_item parts ;;
    params <- parse_params (tail parts) ∅ ;;
    result <- read_command module params ;;
    emit MsgSuccess ;;
    emit (MsgOutput (shorten result))
  else if is_system_command cmd then
    (* System command *)
    result <- run_subprocess (Str.split cmd) 60 ;;
    if (returncode result =? 0)%Z then
      emit MsgSuccess ;;
      emit (MsgOutput (shorten (stdout result)))
    else
      emit (WarnFailed (stderr result))
  else
    emit (WarnUnknown cmd).

(** One round of [for i, cmd in enumerate(executed_commands, 1)]. *)
Definition dispatch_one (item : nat * string) : M unit :=
  let '(i, cmd) := item in
  emit (MsgNumbered i cmd) ;;
  try_except (try_body cmd)
    (fun e => emit (WarnError cmd (str_of e))).

(** The dispatch loop. *)
Definition dispatch (executed_commands : list string) : M unit :=
  for_each (enumerate 1 executed_commands) dispatch_one.

Definition extract_and_execute_commands (response : string)
  : M (list string) :=
  let executed_commands := extract response in
  (match executed_commands with
   | [] => ret tt
   | _ =>
       emit (MsgExecuting (length executed_commands)) ;;
       dispatch executed_commands
   end) ;;
  ret executed_commands.

End Dispatch.

(* ===================================================================== *)
(** ** Declarative counterparts, used to state the properties *)
(* ===================================================================== *)

(** When a pattern matches between two cursor positions: the usual
    inductive reading of a regular expression, with the one-character
    items of [accepts], the boundary test of [\b], the group recording what
    it spanned, and repetition built from rounds that consume something. *)
Inductive matches : regex -> mstate -> mstate -> Prop :=
| matches_eps st :
    matches Eps st st
| matches_lit l c s p g :
    accepts (Lit l) c = true ->
    matches (Lit l) (MState p (String c s) g) (MState (Some c) s g)
| matches_word c s p g :
    accepts WordChar c = true ->
    matches WordChar (MState p (String c s) g) (MState (Some c) s g)
| matches_space c s p g :
    accepts SpaceChar c = true ->
    matches SpaceChar (MState p (String c s) g) (MState (Some c) s g)
| matches_nonspace c s p g :
    accepts NonSpace c = true ->
    matches NonSpace (MState p (String c s) g) (MState (Some c) s g)
| matches_boundary st :
    xorb (is_word_at (prev st)) (is_word_at (peek (rest st))) = true ->
    matches Boundary st st
| matches_seq r1 r2 st1 st2 st3 :
    matches r1 st1 st2 -> matches r2 st2 st3 ->
    matches (Seq r1 r2) st1 st3
| matches_alt_l r1 r2 st st' :
    matches r1 st st' -> matches (Alt r1 r2) st st'
| matches_alt_r r1 r2 st st' :
    matches r2 st st' -> matches (Alt r1 r2) st st'
| matches_star_stop r st :
    matches (Star r) st st
| matches_star_round r st1 st2 st3 :
    matches r st1 st2 ->
    (String.length (rest st2) < String.length (rest st1))%nat ->
    matches (Star r) st2 st3 ->
    matches (Star r) st1 st3
| matches_group r st st' :
    matches r st st' ->
    matches (Group r) st
      (MState (prev st') (rest st') (Some (consumed (rest st) (rest st')))).

(** No capturing group inside. *)
Fixpoint groupless (r : regex) : bool :=
  match r with
  | Group _ => false
  | Seq r1 r2 | Alt r1 r2 => groupless r1 && groupless r2
  | Star r1 => groupless r1
  | _ => true
  end.

(** The last character of a string, if any. *)
Fixpoint last_char (s : string) : option ascii :=
  match s with
  | EmptyString => None
  | String c EmptyString => Some c
  | String _ s' => last_char s'
  end.

(** The text contains a substring matched by the pattern: the pattern
    matches from some position of the text on. *)
Definition occurs (r : regex) (text : string) : Prop :=
  exists pre post st',
    text = pre +:+ post /\ matches r (MState (last_char pre) post None) st'.

(** The same, decided by trying every position. *)
Fixpoint occurs_from (r : regex) (p : option ascii) (s : string) : bool :=
  match match_here r p s with
  | Some _ => true
  | None =>
      match s with
      | EmptyString => false
      | String c s' => occurs_from r (Some c) s'
      end
  end.

Definition occursb (r : regex) (text : string) : bool :=
  occurs_from r None text.

(** All matches of all families, in the order the loops visit them. *)
Definition all_matches (response : string) : list string :=
  findall (module_pattern "g") response
  ++ findall (module_pattern "r") response
  ++ findall (module_pattern "v") response
  ++ findall (module_pattern "i") response
  ++ findall (module_pattern "db") response
  ++ findall (module_pattern "t") response
  ++ findall (module_pattern "m") response
  ++ findall gdal_pattern response
  ++ findall linux_pattern response.

(** Deduplication as the specification words it: an element is kept
    exactly when it is equal to none of the elements before it. *)
Fixpoint first_occurrences_from (seen l : list string) : list string :=
  match l with
  | [] => []
  | x :: l' =>
      if decide (x ∈ seen)
      then first_occurrences_from (seen ++ [x]) l'
      else x :: first_occurrences_from (seen ++ [x]) l'
  end.

Definition first_occurrences (l : list string) : list string :=
  first_occurrences_from [] l.

(** Two strings that differ in letter case only. *)
Fixpoint lower_string (s : string) : string :=
  match s with
  | EmptyString => EmptyString
  | String c s' => String (Char.lower c) (lower_string s')
  end.

(** How one candidate ended. *)
Inductive outcome : Type :=
| Succeeded (shown : string)
| Failed (err : string)
| Unknown
| Errored (msg : string).

Definition report (cmd : string) (o : outcome) : list event :=
  match o with
  | Succeeded shown => [MsgSuccess; MsgOutput shown]
  | Failed err => [WarnFailed err]
  | Unknown => [WarnUnknown cmd]
  | Errored msg => [WarnError cmd msg]
  end.

Definition is_call (ev : event) : bool :=
  match ev with
  | CallReadCommand _ _ | CallSubprocessRun _ _ => true
  | _ => false
  end.

(** What is done for one candidate: a GRASS command gets one call of the
    host and succeeds or raises; a system command gets one subprocess,
    allowed 60 seconds, and succeeds, fails or raises; anything else gets
    no call and is reported unknown. *)
Definition attempted (cmd : string) (calls : list event) (o : outcome)
  : Prop :=
  if is_grass_command cmd then
    (exists module params, calls = [CallReadCommand module params])
    /\ (exists text, o = Succeeded text \/ o = Errored text)
  else if is_system_command cmd then
    calls = [CallSubprocessRun (Str.split cmd) 60] /\ o <> Unknown
  else
    calls = [] /\ o = Unknown.

(** A log that serves the candidates one after the other, numbered from
    [i]: for each its announcement, then what is done for it, then one
    outcome. *)
Inductive serves : nat -> list string -> list event -> Prop :=
| serves_nil i :
    serves i [] []
| serves_cons i cmd cmds calls o log :
    attempted cmd calls o ->
    serves (S i) cmds log ->
    serves i (cmd :: cmds) (MsgNumbered i cmd :: calls ++ report cmd o ++ log).

(** [s] starts with [p]; [s] contains [sub]. *)
Definition starts_with (s p : string) : Prop :=
  exists rest, s = p +:+ rest.

Definition has_substring (s sub : string) : Prop :=
  exists before after, s = before +:+ sub +:+ after.

(** The keyword arguments built from the argument tokens, read left to
    right: [key=value] sets [key], a token without [=] sets [input]. *)
Inductive assigned : list string -> gmap string string -> Prop :=
| assigned_none :
    assigned [] ∅
| assigned_pair args params key value :
    assigned args params ->
    Str.contains "=" key = false ->
    assigned (args ++ [key +:+ "=" +:+ value]) (<[key := value]> params)
| assigned_bare args params part :
    assigned args params ->
    Str.contains "=" part = false ->
    assigned (args ++ [part]) (<["input" := part]> params).

(** The argument-setting step of [parse_params], as a pure function. *)
Definition set_param (params : gmap string string) (part : string)
  : gmap string string :=
  if Str.contains "=" part then
    match Str.split1 "=" part with
    | [key; value] => <[key := value]> params
    | _ => params
    end
  else <["input" := part]> params.

Definition params_of (args : list string) : gmap string string :=
  fold_left set_param args ∅.

(** The character before the cursor once [pre] has been read, [p] being
    the character before [pre]. *)
Definition last_or (p : option ascii) (pre : string) : option ascii :=
  match last_char pre with
  | Some c => Some c
  | None => p
  end.

(** What completeness says of a pattern: a repetition is followed for
    every bound that covers the text left, anything else as it is. *)
Definition followed (r : regex) (st st' : mstate) : Prop :=
  forall k, is_Some (k st') ->
    match r with
    | Star r0 =>
        forall n, (String.length (rest st) <= n)%nat ->
          is_Some (star_loop (run r0) k n st)
    | _ => is_Some (run r k st)
    end.

(** Patterns that cannot match without consuming a character. *)
Fixpoint consuming (r : regex) : bool :=
  match r with
  | Lit _ | WordChar | SpaceChar | NonSpace => true
  | Seq r1 r2 => consuming r1 || consuming r2
  | Alt r1 r2 => consuming r1 && consuming r2
  | Group r1 => consuming r1
  | Eps | Boundary | Star _ => false
  end.

(** [findall] as the library documents it, for matches that are not
    empty: the matches of the text from left to right, none overlapping
    another.  [finds r p s l]: in the text [s] (preceded by the character
    [p]) the pattern reports the list [l], that is, either no position of
    [s] has a match and [l] is empty, or [s] is [pre] followed by [post],
    no position inside [pre] has a match, the position of [post] has the
    match [m] over the characters [w], and the remainder reports the tail
    of [l]. *)
Inductive finds (r : regex) : option ascii -> string -> list string -> Prop :=
| finds_nothing p s :
    occurs_from r p s = false ->
    finds r p s []
| finds_leftmost p pre w m l :
    (forall a b, pre = a +:+ b -> b ≠ "" ->
       match_here r (last_or p a) (b +:+ w +:+ rest m) = None) ->
    match_here r (last_or p pre) (w +:+ rest m) = Some m ->
    w ≠ "" ->
    finds r (last_or p (pre +:+ w)) (rest m) l ->
    finds r p (pre +:+ w +:+ rest m) (group1 m :: l).

(** Strings made of whitespace only, and of anything but whitespace. *)
Fixpoint blank (s : string) : bool :=
  match s with
  | EmptyString => true
  | String c s' => Char.is_space c && blank s'
  end.

Fixpoint solid (s : string) : bool :=
  match s with
  | EmptyString => true
  | String c s' => negb (Char.is_space c) && solid s'
  end.

(** The words of a text: what stands between stretches of whitespace. *)
Inductive words_of : string -> list string -> Prop :=
| words_done s :
    blank s = true ->
    words_of s []
| words_next gap word after ws :
    blank gap = true ->
    word ≠ "" -> solid word = true ->
    (after = "" \/ exists c s, after = String c s /\ Char.is_space c = true) ->
    words_of after ws ->
    words_of (gap +:+ word +:+ after) (word :: ws).

(** The two tests of the classification, in words: the candidate starts
    with a namespace prefix; it starts with [gdal] or contains the name of
    a Linux tool. *)
Definition namespaced (cmd : string) : Prop :=
  exists p, p ∈ grass_prefixes /\ starts_with cmd p.

Definition external (cmd : string) : Prop :=
  starts_with cmd "gdal"
  \/ exists tool, tool ∈ linux_tools /\ has_substring cmd tool.

(** The candidate is executed with success from the world [w], and [out]
    is the whole output: the text the host returns for a GRASS command,
    the standard output of a subprocess that exits with status 0. *)
Definition succeeds {World : Type} `{Host World}
  (cmd : string) (w : World) (out : string) : Prop :=
  (is_grass_command cmd = true
   /\ exists module args w',
        Str.split cmd = module :: args
        /\ gs_read_command module (params_of args) w = (w', inr out))
  \/ (is_grass_command cmd = false
      /\ is_system_command cmd = true
      /\ exists w' result,
           subprocess_run (Str.split cmd) 60 w = (w', inr result)
           /\ returncode result = 0%Z
           /\ stdout result = out).

(** A host for the examples: [g.region] prints the region, every other
    module fails; [gdalinfo] exits with status 1, [wget] never finishes,
    any other program prints its own name.  The world counts the calls. *)
#[local] Instance demo_host : Host nat := {|
  gs_read_command module params w :=
    (S w,
     if String.eqb module "g.region"
     then inr "projection: 99 (Lambert Conformal Conic)"
     else inl (CalledModuleError "Module run failed"));
  subprocess_run args timeout w :=
    (S w,
     match args with
     | "gdalinfo" :: _ => inr (Completed 1 "" "ERROR 4: No such file")
     | "wget" :: _ => inl (TimeoutExpired "timed out after 60 seconds")
     | prog :: _ => inr (Completed 0 prog "")
     | [] => inl (IndexError "list index out of range")
     end)
|}.

(** The surroundings answer the call [call], made in the world [w], by
    raising [b], and leave the world [w']. *)
Definition raises_at {World : Type} {surroundings : Surroundings World}
  (call : event) (w w' : World) (b : base_exception) : Prop :=
  match call with
  | CallReadCommand module params =>
      call_read_command module params w = (w', inl b)
  | CallSubprocessRun args timeout =>
      call_subprocess_run args timeout w = (w', inl b)
  | _ => False
  end.

(** Surroundings for the examples in which the process can end: they are
    those of [demo_host], but a failing module ends the process with status
    1 when the keyword [errors] is [exit]. *)
Definition exiting_host : Surroundings nat := {|
  call_read_command module params w :=
    (S w,
     if String.eqb module "g.region"
     then inr "projection: 99 (Lambert Conformal Conic)"
     else if bool_decide (params !! "errors" = Some "exit")
          then inl (SystemExit 1)
          else inl (AnException (CalledModuleError "Module run failed")));
  call_subprocess_run args timeout w :=
    match subprocess_run args timeout w with
    | (w', r) => (w', as_exception r)
    end
|}.

(** A Python [str] is a sequence of code points of any size.  The text
    with the code points [codes] is a text of this development when all of
    them are below 256, and [text_of codes] is then the [string] that
    stands for it. *)
Fixpoint text_of (codes : list N) : option string :=
  match codes with
  | [] => Some ""
  | n :: codes' =>
      if (n <? 256)%N then
        match text_of codes' with
        | Some s => Some (String (ascii_of_N n) s)
        | None => None
        end
      else None
  end.

(* ===================================================================== *)
(** ** Further vocabulary for the candidates *)
(* ===================================================================== *)

(** The prefixes of the seven module patterns of [command_patterns]. *)
Definition module_prefixes : list string :=
  ["g"; "r"; "v"; "i"; "db"; "t"; "m"].

(** A lower-case text that opens like a match of one of the families: a
    module prefix and a dot, the word [gdal], or the name of a Linux tool
    and nothing else. *)
Definition opens_like_family (s : string) : bool :=
  existsb (fun p => Str.startswith s (p +:+ ".")) module_prefixes
  || Str.startswith s "gdal"
  || mem s linux_tools.

(** Every character of the string passes the test. *)
Fixpoint every (P : ascii -> bool) (s : string) : bool :=
  match s with
  | EmptyString => true
  | String c s' => P c && every P s'
  end.

(** How often a character occurs in a string. *)
Fixpoint count_char (c : ascii) (s : string) : nat :=
  match s with
  | EmptyString => 0
  | String d s' => (if Char.eqb d c then 1 else 0) + count_char c s'
  end.

(** The events of a log that are calls of a collaborator. *)
Definition calls_in (log : list event) : list event :=
  List.filter is_call log.

(** The candidates a log announces, in order. *)
Fixpoint announced (log : list event) : list string :=
  match log with
  | [] => []
  | MsgNumbered _ cmd :: log' => cmd :: announced log'
  | _ :: log' => announced log'
  end.

(** The events of a log up to the next announcement. *)
Fixpoint round_of (log : list event) : list event :=
  match log with
  | [] => []
  | MsgNumbered _ _ :: _ => []
  | ev :: log' => ev :: round_of log'
  end.

(** The log cut into rounds: every announced candidate with the events
    that follow its announcement, up to the next one. *)
Fixpoint rounds (log : list event) : list (string * list event) :=
  match log with
  | [] => []
  | MsgNumbered _ cmd :: log' => (cmd, round_of log') :: rounds log'
  | _ :: log' => rounds log'
  end.

(** The text of the arguments: nothing, or a text that begins with
    whitespace and ends with something else. *)
Definition argument_text (w : string) : Prop :=
  w = ""
  \/ exists a w' d,
       w = String a w' /\ Char.is_space a = true
       /\ last_char w = Some d /\ Char.is_space d = false.

(* ===================================================================== *)
(** ** Effects once more, for the other methods *)
(* ===================================================================== *)

(** The methods below keep local variables that a [try] block changes
    before it raises, print other messages and, in [main], meet exceptions
    that are not [Exception]s.  Their computations are therefore taken
    over any state [St], any kind of event [Ev] and any kind of error
    [Err]; an error keeps the state reached and the events emitted. *)
Module Sc.

Section Combinators.

Context {St Ev Err : Type}.

Definition M (A : Type) : Type := St -> St * list Ev * (Err + A).

Definition ret {A} (a : A) : M A :=
  fun s => (s, [], inr a).

Definition raise {A} (e : Err) : M A :=
  fun s => (s, [], inl e).

Definition bind {A B} (m : M A) (f : A -> M B) : M B :=
  fun s =>
    match m s with
    | (s1, l1, inl e) => (s1, l1, inl e)
    | (s1, l1, inr a) =>
        match f a s1 with
        | (s2, l2, r) => (s2, l1 ++ l2, r)
        end
    end.

(** [try: m  except <those that [caught] accepts> as e: h e] *)
Definition try_except {A} (caught : Err -> bool) (m : M A) (h : Err -> M A)
  : M A :=
  fun s =>
    match m s with
    | (s1, l1, inr a) => (s1, l1, inr a)
    | (s1, l1, inl e) =>
        if caught e then
          match h e s1 with
          | (s2, l2, r) => (s2, l1 ++ l2, r)
          end
        else (s1, l1, inl e)
    end.

Definition emit (ev : Ev) : M unit :=
  fun s => (s, [ev], inr tt).

Definition get : M St :=
  fun s => (s, [], inr s).

Definition modify (f : St -> St) : M unit :=
  fun s => (f s, [], inr tt).

(** [for x in l: body x] *)
Fixpoint for_each {A} (l : list A) (body : A -> M unit) : M unit :=
  match l with
  | [] => ret tt
  | x :: l' => bind (body x) (fun _ => for_each l' body)
  end.

(** A loop that builds a list: [acc] is the list so far. *)
Fixpoint collect {A} (l : list A) (keep : A -> M bool) (acc : list A)
  : M (list A) :=
  match l with
  | [] => ret acc
  | x :: l' =>
      bind (keep x) (fun yes =>
        collect l' keep (if yes then acc ++ [x] else acc))
  end.

End Combinators.

End Sc.

Declare Scope sc_scope.
Delimit Scope sc_scope with sc.
Notation "x <- m ;; k" := (Sc.bind m (fun x => k))
  (at level 100, m at next level, right associativity) : sc_scope.
Notation "m ;; k" := (Sc.bind m (fun _ => k))
  (at level 100, right associativity) : sc_scope.

(* ===================================================================== *)
(** ** The instance and what it asks of its surroundings *)
(* ===================================================================== *)

(** The dictionary [info] of [get_system_info]; [None] is Python's [None].
    [Num] is the type of the numbers of a region. *)
Record SystemInfo (Num : Type) : Type := Info {
  os : string;
  grass_version : option string;
  grass_db : option string;
  grass_location : option string;
  grass_mapset : option string;
  grass_region : option (gmap string (option Num));
  raster_maps : list string;      (* info['available_maps']['raster'] *)
  vector_maps : list string;      (* info['available_maps']['vector'] *)
  gdal_tools : list string;
  python_packages : list string;
  system_tools : list string
}.

Arguments Info {Num}.
Arguments os {Num}.
Arguments grass_version {Num}.
Arguments grass_db {Num}.
Arguments grass_location {Num}.
Arguments grass_mapset {Num}.
Arguments grass_region {Num}.
Arguments raster_maps {Num}.
Arguments vector_maps {Num}.
Arguments gdal_tools {Num}.
Arguments python_packages {Num}.
Arguments system_tools {Num}.

(** The fields of an [IAIGrassAddon].  [system_info] is [None] while the
    attribute is the empty dictionary of [__init__]. *)
Record Addon (Num : Type) : Type := Instance_ {
  session_context : gmap string string;
  module_cache : gmap string (list string);
  system_info : option (SystemInfo Num)
}.

Arguments Instance_ {Num}.
Arguments session_context {Num}.
Arguments module_cache {Num}.
Arguments system_info {Num}.

(** [IAIGrassAddon()] *)
Definition new_addon {Num : Type} : Addon Num :=
  Instance_ ∅ ∅ None.

(** What importing a package can do: succeed, raise [ImportError], or
    raise something else. *)
Inductive import_outcome : Type :=
| Imported
| NotInstalled                  (* ImportError *)
| Broken (e : exception).

(** What the probing methods ask of the GRASS session and of the machine.
    As for [Host], a call may change the world and returns or raises. *)
Class Platform (World Num : Type) : Type := {
  (** [gs.gisenv()] *)
  gs_gisenv : World -> World * (exception + gmap string string);
  (** [gs.version()] *)
  gs_version : World -> World * (exception + gmap string string);
  (** [gs.region()] *)
  gs_region : World -> World * (exception + gmap string Num);
  (** [gs.list_strings(type=t)] *)
  gs_list_strings : string -> World -> World * (exception + list string);
  (** [shutil.which(tool)] *)
  shutil_which : string -> World -> World * (exception + option string);
  (** [__import__(pkg)] *)
  import_package : string -> World -> World * import_outcome
}.

(** What these methods print and ask, in order. *)
Inductive probe : Type :=
| WarnModules (e : string)          (* warning: Could not enumerate modules: {e} *)
| WarnSystemInfo (e : string)       (* warning: Could not get system info: {e} *)
| AskReadCommand (module : string) (params : gmap string string)
| AskGisenv
| AskVersion
| AskRegion
| AskListStrings (type : string)
| AskWhich (tool : string)
| AskImport (pkg : string).

(* ===================================================================== *)
(** ** [get_grass_modules] *)
(* ===================================================================== *)

(** The dictionary [modules] as it is created. *)
Definition empty_modules : gmap string (list string) :=
  {[ "imagery" := []; "general" := []; "raster" := []; "raster3d" := [];
     "vector" := []; "database" := []; "temporal" := []; "misc" := [];
     "display" := []; "ps" := [] ]}.

Definition all_modules : list string :=
  [ "g.list"; "g.remove"; "g.copy"; "g.rename"; "g.region"; "g.proj"; "g.gisenv";
    "r.in.gdal"; "r.out.gdal"; "r.info"; "r.stats"; "r.univar"; "r.mapcalc";
    "r.slope.aspect"; "r.watershed"; "r.resample"; "r.rescale"; "r.colors";
    "v.in.ogr"; "v.out.ogr"; "v.info"; "v.db.select"; "v.db.addcolumn"; "v.buffer";
    "v.overlay"; "v.select"; "v.centroid"; "v.voronoi"; "v.clean";
    "i.group"; "i.target"; "i.class"; "i.cluster"; "i.maxlik"; "i.smap";
    "i.vi"; "i.tasscap"; "i.pca"; "i.fft"; "i.ifft";
    "db.connect"; "db.select"; "db.execute"; "db.tables"; "db.columns";
    "db.describe"; "db.drivers"; "db.login";
    "t.create"; "t.register"; "t.info"; "t.list"; "t.remove"; "t.sample";
    "t.rast.aggregate"; "t.rast.extract"; "t.vect.observe"; "t.vect.what.strds";
    "m.proj"; "m.cogo"; "m.transform"; "m.measure"; "m.lpp" ].

(** [modules[key].append(module)], for a key the dictionary has. *)
Definition append_under (key module : string)
  (modules : gmap string (list string)) : gmap string (list string) :=
  alter (fun l => l ++ [module]) key modules.

(** One round of [for module in all_modules]: the chain of [elif]s. *)
Definition categorize_one (modules : gmap string (list string))
  (module : string) : gmap string (list string) :=
  if Str.startswith module "i." then append_under "imagery" module modules
  else if Str.startswith module "g." then append_under "general" module modules
  else if Str.startswith module "r." then append_under "raster" module modules
  else if Str.startswith module "r3." then append_under "raster3d" module modules
  else if Str.startswith module "v." then append_under "vector" module modules
  else if Str.startswith module "db." then append_under "database" module modules
  else if Str.startswith module "t." then append_under "temporal" module modules
  else if Str.startswith module "m." then append_under "misc" module modules
  else if Str.startswith module "d." then append_under "display" module modules
  else if Str.startswith module "ps." then append_under "ps" module modules
  else modules.

Definition categorize (l : list string) : gmap string (list string) :=
  fold_left categorize_one l empty_modules.

Section Probing.

Context {World Num : Type} `{Host World} `{Platform World Num}.
Local Open Scope sc_scope.

(** A call of a collaborator, on the world part of the state; [L] is
    whatever local variables the caller keeps beside it. *)
Definition ask {L A : Type} (what : probe)
  (call : World -> World * (exception + A))
  : Sc.M (St := World * L) (Ev := probe) (Err := exception) A :=
  fun s =>
    match call (fst s) with
    | (w', r) => ((w', snd s), [what], r)
    end.

(** [get_grass_modules]; the instance is passed in and handed back beside
    the result.  The only statement of the [try] block that can raise is
    the first one, before [modules] is touched. *)
Definition get_grass_modules (self : Addon Num)
  : Sc.M (St := World * unit) (Ev := probe) (Err := exception)
      (Addon Num * gmap string (list string)) :=
  if decide (module_cache self = ∅) then
    modules <-
      Sc.try_except (fun _ => true)
        (result <- ask (AskReadCommand "g.version" {["flags" := "g"]})
                     (gs_read_command "g.version" {["flags" := "g"]}) ;;
         Sc.ret (categorize all_modules))
        (fun e =>
           Sc.emit (WarnModules (str_of e)) ;;
           Sc.ret empty_modules) ;;
    Sc.ret (Instance_ (session_context self) modules (system_info self),
            modules)
  else
    Sc.ret (self, module_cache self).

End Probing.

(** The category of each prefix, as the comments of [modules] give it. *)
Definition categories : list (string * string) :=
  [ ("imagery", "i."); ("general", "g."); ("raster", "r.");
    ("raster3d", "r3."); ("vector", "v."); ("database", "db.");
    ("temporal", "t."); ("misc", "m."); ("display", "d."); ("ps", "ps.") ].

(* ===================================================================== *)
(** ** [get_gdal_tools] and [get_system_info] *)
(* ===================================================================== *)

Definition common_tools : list string :=
  [ "gdalinfo"; "gdal_translate"; "gdalwarp"; "gdalbuildvrt";
    "gdal_rasterize"; "gdal_polygonize"; "gdal_sieve"; "gdal_fillnodata";
    "gdal_contour"; "gdaldem"; "gdal_grid"; "gdal_merge";
    "gdal_pansharpen"; "gdaltransform"; "nearblack"; "gdaladdo";
    "gdal_edit"; "gdal_calc.py"; "gdal_proximity"; "gdal_slope";
    "gdal_aspect"; "gdal_hillshade"; "gdal_roughness"; "gdal_TPI";
    "gdal_tri"; "ogrinfo"; "ogr2ogr"; "ogrtindex"; "ogrmerge";
    "ogrlineref"; "ogrlayer2sql"; "ogrlayer2sqlite"; "ogr2vrt" ].

Definition probed_packages : list string :=
  ["gdal"; "rasterio"; "geopandas"; "numpy"; "scipy"; "matplotlib"; "sklearn"].

Definition probed_tools : list string :=
  ["wget"; "curl"; "unzip"; "tar"; "gzip"; "awk"; "sed"; "grep"; "cut";
   "sort"; "uniq"].

(** The dictionary [info] as it is created. *)
Definition default_info {Num : Type} : SystemInfo Num :=
  Info "Linux" None None None None None [] [] [] [] [].

(** Assignments to the keys of [info]. *)
Definition with_version {Num} (v : option string) (i : SystemInfo Num) :=
  Info (os i) v (grass_db i) (grass_location i) (grass_mapset i)
    (grass_region i) (raster_maps i) (vector_maps i) (gdal_tools i)
    (python_packages i) (system_tools i).

Definition with_db {Num} (v : option string) (i : SystemInfo Num) :=
  Info (os i) (grass_version i) v (grass_location i) (grass_mapset i)
    (grass_region i) (raster_maps i) (vector_maps i) (gdal_tools i)
    (python_packages i) (system_tools i).

Definition with_location {Num} (v : option string) (i : SystemInfo Num) :=
  Info (os i) (grass_version i) (grass_db i) v (grass_mapset i)
    (grass_region i) (raster_maps i) (vector_maps i) (gdal_tools i)
    (python_packages i) (system_tools i).

Definition with_mapset {Num} (v : option string) (i : SystemInfo Num) :=
  Info (os i) (grass_version i) (grass_db i) (grass_location i) v
    (grass_region i) (raster_maps i) (vector_maps i) (gdal_tools i)
    (python_packages i) (system_tools i).

Definition with_region {Num} (v : option (gmap string (option Num)))
  (i : SystemInfo Num) :=
  Info (os i) (grass_version i) (grass_db i) (grass_location i)
    (grass_mapset i) v (raster_maps i) (vector_maps i) (gdal_tools i)
    (python_packages i) (system_tools i).

Definition with_rasters {Num} (l : list string) (i : SystemInfo Num) :=
  Info (os i) (grass_version i) (grass_db i) (grass_location i)
    (grass_mapset i) (grass_region i) l (vector_maps i) (gdal_tools i)
    (python_packages i) (system_tools i).

Definition with_vectors {Num} (l : list string) (i : SystemInfo Num) :=
  Info (os i) (grass_version i) (grass_db i) (grass_location i)
    (grass_mapset i) (grass_region i) (raster_maps i) l (gdal_tools i)
    (python_packages i) (system_tools i).

Definition with_gdal_tools {Num} (l : list string) (i : SystemInfo Num) :=
  Info (os i) (grass_version i) (grass_db i) (grass_location i)
    (grass_mapset i) (grass_region i) (raster_maps i) (vector_maps i) l
    (python_packages i) (system_tools i).

Definition with_python_packages {Num} (l : list string)
  (i : SystemInfo Num) :=
  Info (os i) (grass_version i) (grass_db i) (grass_location i)
    (grass_mapset i) (grass_region i) (raster_maps i) (vector_maps i)
    (gdal_tools i) l (system_tools i).

Definition with_system_tools {Num} (l : list string) (i : SystemInfo Num) :=
  Info (os i) (grass_version i) (grass_db i) (grass_location i)
    (grass_mapset i) (grass_region i) (raster_maps i) (vector_maps i)
    (gdal_tools i) (python_packages i) l.

(** Truth value of what [shutil.which] returns: a path that is not empty. *)
Definition found (path : option string) : bool :=
  match path with
  | Some p => negb (String.eqb p "")
  | None => false
  end.

Section SystemProbing.

Context {World Num : Type} `{Platform World Num}.
Local Open Scope sc_scope.

(** [if shutil.which(tool)] *)
Definition which {L : Type} (tool : string)
  : Sc.M (St := World * L) (Ev := probe) (Err := exception) bool :=
  path <- ask (AskWhich tool) (shutil_which tool) ;;
  Sc.ret (found path).

(** [get_gdal_tools] *)
Definition get_gdal_tools {L : Type}
  : Sc.M (St := World * L) (Ev := probe) (Err := exception) (list string) :=
  Sc.collect common_tools which [].

(** [try: __import__(pkg) ... except ImportError: pass] *)
Definition importable {L : Type} (pkg : string)
  : Sc.M (St := World * L) (Ev := probe) (Err := exception) bool :=
  fun s =>
    match import_package pkg (fst s) with
    | (w', Imported) => ((w', snd s), [AskImport pkg], inr true)
    | (w', NotInstalled) => ((w', snd s), [AskImport pkg], inr false)
    | (w', Broken e) => ((w', snd s), [AskImport pkg], inl e)
    end.

(** An assignment to a key of [info]. *)
Definition set_info (f : SystemInfo Num -> SystemInfo Num)
  : Sc.M (St := World * SystemInfo Num) (Ev := probe) (Err := exception) unit :=
  Sc.modify (fun s => (fst s, f (snd s))).

(** [d['key']] *)
Definition item (d : gmap string string) (key : string)
  : Sc.M (St := World * SystemInfo Num) (Ev := probe) (Err := exception) string :=
  match d !! key with
  | Some v => Sc.ret v
  | None => Sc.raise (OtherException ("'" +:+ key +:+ "'"))
  end.

(** The block under the outer [try] of [get_system_info], part by part;
    [info] is the second part of the state. *)

(* GRASS info *)
Definition probe_grass_info
  : Sc.M (St := World * SystemInfo Num) (Ev := probe) (Err := exception) unit :=
  gisenv <- ask AskGisenv gs_gisenv ;;
  version <- ask AskVersion gs_version ;;
  v <- item version "version" ;;
  set_info (with_version (Some v)) ;;
  set_info (with_db (gisenv !! "GISDBASE")) ;;
  set_info (with_location (gisenv !! "LOCATION_NAME")) ;;
  set_info (with_mapset (gisenv !! "MAPSET")).

(* Region info *)
Definition probe_region
  : Sc.M (St := World * SystemInfo Num) (Ev := probe) (Err := exception) unit :=
  Sc.try_except (fun _ => true)
    (region <- ask AskRegion gs_region ;;
     set_info (with_region
       (Some {[ "north" := region !! "n"; "south" := region !! "s";
                "east" := region !! "e"; "west" := region !! "w";
                "nsres" := region !! "nsres"; "ewres" := region !! "ewres";
                "rows" := region !! "rows"; "cols" := region !! "cols" ]})))
    (fun _ => Sc.ret tt).

(* Available maps *)
Definition probe_maps
  : Sc.M (St := World * SystemInfo Num) (Ev := probe) (Err := exception) unit :=
  Sc.try_except (fun _ => true)
    (rasters <- ask (AskListStrings "raster") (gs_list_strings "raster") ;;
     set_info (with_rasters (take 20 rasters)) ;;
     vectors <- ask (AskListStrings "vector") (gs_list_strings "vector") ;;
     set_info (with_vectors (take 20 vectors)))
    (fun _ => Sc.ret tt).

(* GDAL tools, Python packages, System tools *)
Definition probe_programs
  : Sc.M (St := World * SystemInfo Num) (Ev := probe) (Err := exception) unit :=
  tools <- get_gdal_tools ;;
  set_info (with_gdal_tools tools) ;;
  packages <- Sc.collect probed_packages importable [] ;;
  set_info (with_python_packages packages) ;;
  programs <- Sc.collect probed_tools which [] ;;
  set_info (with_system_tools programs).

Definition probe_system
  : Sc.M (St := World * SystemInfo Num) (Ev := probe) (Err := exception) unit :=
  probe_grass_info ;;
  probe_region ;;
  probe_maps ;;
  probe_programs.

(** [get_system_info]; the instance is passed in and handed back beside the
    result. *)
Definition get_system_info (self : Addon Num)
  : Sc.M (St := World * unit) (Ev := probe) (Err := exception)
      (Addon Num * SystemInfo Num) :=
  match system_info self with
  | Some info => Sc.ret (self, info)
  | None =>
      fun s =>
        match
          Sc.try_except (fun _ => true) probe_system
            (fun e => Sc.emit (WarnSystemInfo (str_of e)))
            (fst s, default_info)
        with
        | ((w', info), log, r) =>
            ((w', tt), log,
             match r with
             | inl e => inl e
             | inr _ =>
                 inr (Instance_ (session_context self) (module_cache self)
                        (Some info), info)
             end)
        end
  end.

End SystemProbing.

(* ===================================================================== *)
(** ** Vocabulary for the probing methods *)
(* ===================================================================== *)

(** What holds when a computation started in [s] is over: [Q] of the final
    state and the value when it returns, [E] of the final state and the
    error when it raises. *)
Definition post {St Ev Err A : Type}
  (m : Sc.M (St := St) (Ev := Ev) (Err := Err) A) (s : St)
  (Q : St -> A -> Prop) (E : St -> Err -> Prop) : Prop :=
  match m s with
  | (s', _, inr a) => Q s' a
  | (s', _, inl e) => E s' e
  end.

(** The information is within its bounds: at most twenty maps of each
    kind, and of each fixed list of tools and packages a selection in the
    order of the list. *)
Definition within_bounds {Num : Type} (i : SystemInfo Num) : Prop :=
  os i = "Linux"
  /\ (length (raster_maps i) <= 20)%nat
  /\ (length (vector_maps i) <= 20)%nat
  /\ gdal_tools i `sublist_of` common_tools
  /\ python_packages i `sublist_of` probed_packages
  /\ system_tools i `sublist_of` probed_tools.

(** A GRASS session and a machine for the examples.  The world counts the
    calls; a session started at 200 or later has no environment, one
    started at 100 or later has no version; otherwise the region cannot be
    read, there are 25 raster maps, the vector maps cannot be listed, and
    [gdalinfo], [tar] and [numpy] are installed. *)
#[local] Instance demo_platform : Platform nat Z := {|
  gs_gisenv w :=
    (S w,
     if (w <? 200)%nat
     then inr {[ "GISDBASE" := "/data/grass"; "LOCATION_NAME" := "nc_spm";
                 "MAPSET" := "user1" ]}
     else inl (CalledModuleError "g.gisenv failed"));
  gs_version w :=
    (S w,
     if (w <? 100)%nat then inr {[ "version" := "8.3.2" ]}
     else inl (CalledModuleError "g.version failed"));
  gs_region w := (S w, inl (CalledModuleError "g.region failed"));
  gs_list_strings type w :=
    (S w,
     if String.eqb type "raster" then inr (replicate 25 "elevation@PERMANENT")
     else inl (CalledModuleError "g.list failed"));
  shutil_which tool w :=
    (S w,
     inr (if String.eqb tool "gdalinfo" then Some "/usr/bin/gdalinfo"
          else if String.eqb tool "tar" then Some "/usr/bin/tar"
          else None));
  import_package pkg w :=
    (S w, if String.eqb pkg "numpy" then Imported else NotInstalled)
|}.

(** A computation keeps [I] true of the local variables, whether it
    returns or raises. *)
Definition keeps {World L Ev Err A : Type} (I : L -> Prop)
  (m : Sc.M (St := World * L) (Ev := Ev) (Err := Err) A) (s : World * L)
  : Prop :=
  post m s (fun s' _ => I (snd s')) (fun s' _ => I (snd s')).

(* ===================================================================== *)
(** * Properties *)
(* ===================================================================== *)

(** ** The matcher against the declarative reading *)

Lemma star_loop_sound r k :
  (forall k' st m, run r k' st = Some m ->
     exists st', matches r st st' /\ k' st' = Some m) ->
  forall n st m,
    star_loop (run r) k n st = Some m ->
    exists st', matches (Star r) st st' /\ k st' = Some m.
Proof.
  intros Hbody n. induction n as [|n IHn]; intros st m Hloop; simpl in Hloop.
  - exists st. split; [apply matches_star_stop | exact Hloop].
  - destruct (run r _ st) as [res|] eqn:Hround.
    + injection Hloop as ->.
      apply Hbody in Hround as (st1 & Hm1 & Hk1).
      destruct (String.length (rest st1) <? String.length (rest st))%nat
        eqn:Hlt; [|discriminate].
      apply IHn in Hk1 as (st2 & Hm2 & Hk2).
      exists st2. split; [|exact Hk2].
      eapply matches_star_round; eauto. by apply Nat.ltb_lt.
    + exists st. split; [apply matches_star_stop | exact Hloop].
Qed.

Lemma run_sound r :
  forall k st m, run r k st = Some m ->
    exists st', matches r st st' /\ k st' = Some m.
Proof.
  induction r as [|l| | | | |r1 IH1 r2 IH2|r1 IH1 r2 IH2|r IH|r IH];
    intros k st m Hrun; simpl in Hrun.
  - exists st. split; [constructor | exact Hrun].
  - destruct st as [p [|c s] g]; simpl in *; [discriminate|].
    destruct (Char.ieqb l c) eqn:Hacc; [|discriminate].
    eexists. split; [by apply matches_lit | exact Hrun].
  - destruct st as [p [|c s] g]; simpl in *; [discriminate|].
    destruct (Char.is_word c) eqn:Hacc; [|discriminate].
    eexists. split; [by apply matches_word | exact Hrun].
  - destruct st as [p [|c s] g]; simpl in *; [discriminate|].
    destruct (Char.is_space c) eqn:Hacc; [|discriminate].
    eexists. split; [by apply matches_space | exact Hrun].
  - destruct st as [p [|c s] g]; simpl in *; [discriminate|].
    destruct (negb _) eqn:Hacc; [|discriminate].
    eexists. split; [by apply matches_nonspace | exact Hrun].
  - destruct (xorb _ _) eqn:Hb; [|discriminate].
    exists st. split; [by apply matches_boundary | exact Hrun].
  - apply IH1 in Hrun as (st1 & Hm1 & Hrun).
    apply IH2 in Hrun as (st2 & Hm2 & Hk).
    exists st2. split; [by eapply matches_seq | exact Hk].
  - destruct (run r1 k st) as [res|] eqn:Hleft.
    + injection Hrun as ->. apply IH1 in Hleft as (st1 & Hm1 & Hk).
      exists st1. split; [by apply matches_alt_l | exact Hk].
    + apply IH2 in Hrun as (st1 & Hm1 & Hk).
      exists st1. split; [by apply matches_alt_r | exact Hk].
  - by eapply star_loop_sound.
  - apply IH in Hrun as (st1 & Hm1 & Hk).
    eexists. split; [by apply matches_group | exact Hk].
Qed.

Lemma followed_run r st st' k :
  followed r st st' -> is_Some (k st') -> is_Some (run r k st).
Proof.
  intros Hf Hk. specialize (Hf k Hk).
  destruct r; try exact Hf. simpl. by apply Hf.
Qed.

Lemma matches_followed r st st' : matches r st st' -> followed r st st'.
Proof.
  induction 1 as
    [st|l c s p g Hacc|c s p g Hacc|c s p g Hacc|c s p g Hacc|st Hb
    |r1 r2 st1 st2 st3 _ IH1 _ IH2|r1 r2 st st' _ IH|r1 r2 st st' _ IH
    |r st|r st1 st2 st3 _ IH1 Hlt _ IH2|r st st' _ IH];
    intros k Hk; simpl.
  - exact Hk.
  - simpl in Hacc. by rewrite Hacc.
  - simpl in Hacc. by rewrite Hacc.
  - simpl in Hacc. by rewrite Hacc.
  - simpl in Hacc. by rewrite Hacc.
  - by rewrite Hb.
  - eapply followed_run; [exact IH1|]. by eapply followed_run.
  - pose proof (followed_run _ _ _ k IH Hk) as [res ->]. by eexists.
  - destruct (run r1 k st) as [res|]; [by eexists|].
    by eapply followed_run.
  - intros [|n] _; simpl; [exact Hk|].
    destruct (run r _ st); [by eexists | exact Hk].
  - intros [|n] Hn; simpl; [lia|].
    assert (is_Some (run r
      (fun st' =>
         if (String.length (rest st') <? String.length (rest st1))%nat
         then star_loop (run r) k n st' else None) st1)) as [res ->];
      [|by eexists].
    eapply followed_run; [exact IH1|].
    apply Nat.ltb_lt in Hlt as Hlt'. rewrite Hlt'.
    apply (IH2 k Hk). lia.
  - eapply followed_run; [exact IH|]. exact Hk.
Qed.

Lemma run_complete r st st' k :
  matches r st st' -> is_Some (k st') -> is_Some (run r k st).
Proof. intros Hm. apply followed_run. by apply matches_followed. Qed.

(** A match attempt succeeds exactly when the pattern matches there. *)
Lemma match_here_iff r p s :
  is_Some (match_here r p s) <-> exists st', matches r (MState p s None) st'.
Proof.
  unfold match_here. split.
  - intros [m Hm]. apply run_sound in Hm as (st' & Hst & _). by exists st'.
  - intros [st' Hst]. by eapply run_complete.
Qed.

(** ** Strings *)

Lemma append_cons c s t : String c s +:+ t = String c (s +:+ t).
Proof. reflexivity. Qed.

Lemma append_empty_l s : "" +:+ s = s.
Proof. reflexivity. Qed.

Lemma append_empty_r s : s +:+ "" = s.
Proof. induction s as [|c s IH]; [done|]. by rewrite append_cons, IH. Qed.

Lemma append_assoc s t u : (s +:+ t) +:+ u = s +:+ (t +:+ u).
Proof. induction s as [|c s IH]; [done|]. by rewrite !append_cons, IH. Qed.

Lemma length_append s t :
  String.length (s +:+ t) = (String.length s + String.length t)%nat.
Proof. induction s as [|c s IH]; [done|]. rewrite append_cons. simpl. by rewrite IH. Qed.

Lemma last_char_cons_some c s : is_Some (last_char (String c s)).
Proof.
  revert c. induction s as [|d s IH]; intros c; simpl; [by eexists|].
  apply IH.
Qed.

Lemma last_or_empty p : last_or p "" = p.
Proof. reflexivity. Qed.

Lemma last_or_cons p c s : last_or p (String c s) = last_or (Some c) s.
Proof.
  unfold last_or. destruct s as [|d s]; [done|].
  change (last_char (String c (String d s))) with (last_char (String d s)).
  by destruct (last_char_cons_some d s) as [x ->].
Qed.

Lemma last_or_none pre : last_or None pre = last_char pre.
Proof. unfold last_or. by destruct (last_char pre). Qed.

(** ** Scanning *)

Lemma occurs_from_true r p s :
  occurs_from r p s = true <->
  exists pre post,
    s = pre +:+ post /\ is_Some (match_here r (last_or p pre) post).
Proof.
  split.
  - revert p. induction s as [|c s IH]; intros p Hocc; simpl in Hocc.
    + destruct (match_here r p "") as [m|] eqn:Hm; [|discriminate].
      exists "", "". rewrite last_or_empty, Hm. by split; [|eexists].
    + destruct (match_here r p (String c s)) as [m|] eqn:Hm.
      * exists "", (String c s). rewrite last_or_empty, Hm.
        by split; [|eexists].
      * apply IH in Hocc as (pre & post & -> & Hsome).
        exists (String c pre), post. by rewrite last_or_cons.
  - intros (pre & post & -> & Hsome). revert p Hsome.
    induction pre as [|c pre IH]; intros p [m Hm].
    + rewrite last_or_empty in Hm. rewrite append_empty_l.
      destruct post; simpl; by rewrite Hm.
    + rewrite last_or_cons in Hm. rewrite append_cons. simpl.
      destruct (match_here r p _); [done|]. apply IH. by eexists.
Qed.

(** [occursb] decides [occurs]. *)
Lemma occurs_iff r text : occurs r text <-> occursb r text = true.
Proof.
  unfold occurs, occursb. rewrite occurs_from_true. split.
  - intros (pre & post & st' & -> & Hm). exists pre, post. split; [done|].
    rewrite last_or_none. apply match_here_iff. by exists st'.
  - intros (pre & post & -> & Hsome). rewrite last_or_none in Hsome.
    apply match_here_iff in Hsome as [st' Hm]. by exists pre, post, st'.
Qed.

(** Every string [scan] reports is the group of a match at some position. *)
Lemma scan_reports r x : forall s skip p,
  x ∈ scan r skip p s ->
  exists pre post m,
    s = pre +:+ post
    /\ match_here r (last_or p pre) post = Some m
    /\ x = group1 m.
Proof.
  induction s as [|c s IH]; intros skip p Hin; simpl in Hin.
  - destruct skip; [|by apply elem_of_nil in Hin].
    destruct (match_here r p "") as [m|] eqn:Hm;
      [|by apply elem_of_nil in Hin].
    apply list_elem_of_singleton in Hin as ->. by exists "", "", m.
  - assert (forall k, x ∈ scan r k (Some c) s ->
              exists pre post m,
                String c s = pre +:+ post
                /\ match_here r (last_or p pre) post = Some m
                /\ x = group1 m) as Hlater.
    { intros k Hk. apply IH in Hk as (pre & post & m & -> & Hm & ->).
      exists (String c pre), post, m. by rewrite last_or_cons. }
    destruct skip as [|skip]; [|by eapply Hlater].
    destruct (match_here r p (String c s)) as [m|] eqn:Hm;
      [|by eapply Hlater].
    apply elem_of_cons in Hin as [->|Hin]; [|by eapply Hlater].
    by exists "", (String c s), m.
Qed.

Lemma findall_reports r text x :
  x ∈ findall r text ->
  exists pre post m,
    text = pre +:+ post
    /\ match_here r (last_char pre) post = Some m
    /\ x = group1 m.
Proof.
  intros Hin. apply scan_reports in Hin as (pre & post & m & -> & Hm & ->).
  rewrite last_or_none in Hm. by exists pre, post, m.
Qed.

Lemma findall_nil r text : ¬ occurs r text -> findall r text = [].
Proof.
  intros Hno. destruct (findall r text) as [|x l] eqn:Hall; [done|].
  exfalso. apply Hno.
  assert (x ∈ findall r text) as Hin by (rewrite Hall; apply elem_of_cons; by left).
  apply findall_reports in Hin as (pre & post & m & -> & Hm & _).
  unfold match_here in Hm. apply run_sound in Hm as (st' & Hst & _).
  by exists pre, post, st'.
Qed.

(** ** Deduplication *)

Lemma mem_elem_of x l : mem x l = true <-> x ∈ l.
Proof.
  unfold mem. rewrite existsb_exists. split.
  - intros (y & Hy & Heq). apply String.eqb_eq in Heq as ->.
    by apply list_elem_of_In.
  - intros Hin. exists x. split; [by apply list_elem_of_In|].
    apply String.eqb_refl.
Qed.

Lemma first_occurrences_from_elem x : forall l seen,
  x ∈ first_occurrences_from seen l <-> x ∈ l /\ x ∉ seen.
Proof.
  induction l as [|y l IH]; intros seen; simpl.
  - rewrite elem_of_nil. tauto.
  - destruct (decide (y ∈ seen)) as [Hy|Hy].
    + rewrite IH, elem_of_cons, elem_of_app, list_elem_of_singleton.
      split; [tauto|]. intros [[->|Hin] Hno]; [done|].
      split; [done|]. intros [?| ->]; done.
    + rewrite !elem_of_cons, IH, elem_of_app, list_elem_of_singleton.
      split.
      * intros [->|[Hin Hno]]; [tauto|]. tauto.
      * intros [[->|Hin] Hno]; [tauto|].
        destruct (decide (x = y)) as [->|Hne]; [tauto|]. right. tauto.
Qed.

Lemma first_occurrences_from_NoDup : forall l seen,
  NoDup (first_occurrences_from seen l).
Proof.
  induction l as [|y l IH]; intros seen; simpl; [apply NoDup_nil_2|].
  destruct (decide (y ∈ seen)); [apply IH|].
  apply NoDup_cons_2; [|apply IH].
  rewrite first_occurrences_from_elem, elem_of_app, list_elem_of_singleton.
  tauto.
Qed.

Lemma first_occurrences_from_app : forall l1 l2 seen,
  first_occurrences_from seen (l1 ++ l2)
  = first_occurrences_from seen l1 ++ first_occurrences_from (seen ++ l1) l2.
Proof.
  induction l1 as [|y l1 IH]; intros l2 seen; simpl.
  - by rewrite app_nil_r.
  - rewrite IH, <- app_assoc. simpl. by destruct (decide (y ∈ seen)).
Qed.

Lemma first_occurrences_from_same l : forall seen seen',
  (forall x, x ∈ seen <-> x ∈ seen') ->
  first_occurrences_from seen l = first_occurrences_from seen' l.
Proof.
  induction l as [|y l IH]; intros seen seen' Hsame; simpl; [done|].
  rewrite (IH (seen ++ [y]) (seen' ++ [y])).
  - destruct (decide (y ∈ seen)) as [Hy|Hy], (decide (y ∈ seen')) as [Hy'|Hy'];
      try done; exfalso; apply Hsame in Hy || apply Hsame in Hy'; done.
  - intros x. rewrite !elem_of_app, Hsame. tauto.
Qed.

(** The inner loop appends the first occurrences of what is new. *)
Lemma add_matches_spec : forall ms acc,
  add_matches acc ms = acc ++ first_occurrences_from acc ms.
Proof.
  unfold add_matches. induction ms as [|m ms IH]; intros acc; simpl.
  - by rewrite app_nil_r.
  - destruct (mem m acc) eqn:Hmem.
    + apply mem_elem_of in Hmem. rewrite IH.
      destruct (decide (m ∈ acc)); [|done]. f_equal.
      apply first_occurrences_from_same. intros x.
      rewrite elem_of_app, list_elem_of_singleton. split; [tauto|].
      intros [?| ->]; done.
    + assert (m ∉ acc) as Hno.
      { intros Hin. apply mem_elem_of in Hin. congruence. }
      rewrite IH. destruct (decide (m ∈ acc)); [done|].
      by rewrite <- app_assoc.
Qed.

(** The outer loop does the same over the matches of all patterns. *)
Lemma extract_loop_spec text : forall ps acc,
  fold_left (fun acc pattern => add_matches acc (findall pattern text)) ps acc
  = acc ++ first_occurrences_from acc
             (concat (map (fun pattern => findall pattern text) ps)).
Proof.
  induction ps as [|p ps IH]; intros acc; simpl.
  - by rewrite app_nil_r.
  - rewrite IH, add_matches_spec, first_occurrences_from_app, <- app_assoc.
    do 2 f_equal. apply first_occurrences_from_same. intros x.
    rewrite !elem_of_app, first_occurrences_from_elem. split; [tauto|].
    intros [Hacc|Hnew]; [tauto|].
    destruct (decide (x ∈ acc)); tauto.
Qed.

Lemma all_matches_concat text :
  all_matches text
  = concat (map (fun pattern => findall pattern text) command_patterns).
Proof. unfold all_matches, command_patterns. simpl. by rewrite app_nil_r. Qed.

Lemma extract_spec text :
  extract text = first_occurrences (all_matches text).
Proof.
  unfold extract, first_occurrences.
  by rewrite extract_loop_spec, all_matches_concat.
Qed.

(** ** What the group of the Linux-tools pattern holds *)

Lemma char_eqb_eq a b : Char.eqb a b = true -> a = b.
Proof.
  unfold Char.eqb, Char.code. intros Heq. apply N.eqb_eq in Heq.
  rewrite <- (ascii_N_embedding a), <- (ascii_N_embedding b). by rewrite Heq.
Qed.

Lemma take_append w s : Str.take (String.length w) (w +:+ s) = w.
Proof.
  induction w as [|c w IH]; [done|].
  rewrite append_cons. simpl. by rewrite IH.
Qed.

Lemma consumed_append w s : consumed (w +:+ s) s = w.
Proof.
  unfold consumed. rewrite length_append.
  replace (String.length w + String.length s - String.length s)%nat
    with (String.length w) by lia.
  apply take_append.
Qed.

(** A match only moves the cursor forward over the text. *)
Lemma matches_suffix r st st' :
  matches r st st' -> exists w, rest st = w +:+ rest st'.
Proof.
  induction 1 as
    [st|l c s p g Hacc|c s p g Hacc|c s p g Hacc|c s p g Hacc|st Hb
    |r1 r2 st1 st2 st3 _ [w1 IH1] _ [w2 IH2]|r1 r2 st st' _ IH
    |r1 r2 st st' _ IH
    |r st|r st1 st2 st3 _ [w1 IH1] Hlt _ [w2 IH2]|r st st' _ IH];
    simpl; try (by exists ""); try (by exists (String c "")); try done.
  - exists (w1 +:+ w2). by rewrite IH1, IH2, append_assoc.
  - exists (w1 +:+ w2). by rewrite IH1, IH2, append_assoc.
Qed.

(** Outside a group the captured text is left alone. *)
Lemma matches_groupless r st st' :
  matches r st st' -> groupless r = true -> captured st' = captured st.
Proof.
  induction 1 as
    [st|l c s p g Hacc|c s p g Hacc|c s p g Hacc|c s p g Hacc|st Hb
    |r1 r2 st1 st2 st3 _ IH1 _ IH2|r1 r2 st st' _ IH|r1 r2 st st' _ IH
    |r st|r st1 st2 st3 _ IH1 Hlt _ IH2|r st st' _ IH];
    simpl; intros Hg; try done.
  - apply andb_prop in Hg as [Hg1 Hg2]. by rewrite IH2, IH1.
  - apply andb_prop in Hg as [Hg1 Hg2]. by apply IH.
  - apply andb_prop in Hg as [Hg1 Hg2]. by apply IH.
  - by rewrite IH2, IH1.
Qed.

(** A literal word matches its own spelling, in any letter case. *)
Lemma matches_lits t : forall st st',
  matches (lits t) st st' ->
  exists w, rest st = w +:+ rest st' /\ lower_string w = lower_string t.
Proof.
  induction t as [|l t IH]; intros st st' Hm.
  - inversion Hm; subst. by exists "".
  - destruct t as [|l' t].
    + inversion Hm as [|? c s p g Hacc| | | | | | | | | |]; subst.
      exists (String c ""). split; [done|]. simpl in *.
      apply char_eqb_eq in Hacc. by rewrite Hacc.
    + change (lits (String l (String l' t)))
        with (Seq (Lit l) (lits (String l' t))) in Hm.
      inversion Hm as [| | | | | |? ? ? st2 ? Hhead Htail| | | | |]; subst.
      inversion Hhead as [|? c s p g Hacc| | | | | | | | | |]; subst.
      apply IH in Htail as (w & Hw & Hlow). simpl in Hw.
      exists (String c w). split; [by rewrite append_cons, <- Hw|].
      simpl in Hacc. apply char_eqb_eq in Hacc.
      change (lower_string (String c w))
        with (String (Char.lower c) (lower_string w)).
      rewrite Hlow. change (lower_string (String l (String l' t)))
        with (String (Char.lower l) (lower_string (String l' t))).
      by rewrite Hacc.
Qed.

Lemma matches_alternatives_from ns : forall r0 st st',
  matches (fold_left (fun r m => Alt r (lits m)) ns r0) st st' ->
  matches r0 st st' \/ exists n, n ∈ ns /\ matches (lits n) st st'.
Proof.
  induction ns as [|n ns IH]; intros r0 st st' Hm; simpl in Hm; [by left|].
  apply IH in Hm as [Hm|(n' & Hin & Hm)].
  - inversion Hm; subst; [by left|]. right. exists n. split; [by left|done].
  - right. exists n'. split; [by right|done].
Qed.

Lemma matches_alternatives names st st' :
  names ≠ [] ->
  matches (alternatives names) st st' ->
  exists n, n ∈ names /\ matches (lits n) st st'.
Proof.
  destruct names as [|n ns]; [done|]. intros _ Hm. simpl in Hm.
  apply matches_alternatives_from in Hm as [Hm|(n' & Hin & Hm)].
  - exists n. split; [by left|done].
  - exists n'. split; [by right|done].
Qed.

(** ** The [str] tests and splits *)

Lemma prefix_empty s : String.prefix "" s = true.
Proof. by destruct s. Qed.

Lemma prefix_cons a p b s :
  String.prefix (String a p) (String b s)
  = if Ascii.ascii_dec a b then String.prefix p s else false.
Proof. reflexivity. Qed.

Lemma startswith_iff s p : Str.startswith s p = true <-> starts_with s p.
Proof.
  unfold Str.startswith, starts_with. revert s.
  induction p as [|a p IH]; intros s.
  - rewrite prefix_empty. split; [|done]. intros _. by exists s.
  - destruct s as [|b s]; simpl.
    + split; [done|]. by intros [rest Heq].
    + destruct (Ascii.ascii_dec a b) as [->|Hne].
      * rewrite IH. split; intros [rest Heq]; exists rest.
        -- by rewrite append_cons, <- Heq.
        -- rewrite append_cons in Heq. by injection Heq.
      * split; [done|]. intros [rest Heq]. rewrite append_cons in Heq.
        injection Heq as Hab _. by symmetry in Hab.
Qed.

Lemma contains_empty sub : Str.contains sub "" = Str.startswith "" sub || false.
Proof. reflexivity. Qed.

Lemma contains_cons sub c s :
  Str.contains sub (String c s)
  = Str.startswith (String c s) sub || Str.contains sub s.
Proof. reflexivity. Qed.

Lemma contains_iff sub s : Str.contains sub s = true <-> has_substring s sub.
Proof.
  unfold has_substring. induction s as [|c s IH].
  - rewrite contains_empty, orb_false_r, startswith_iff. split.
    + intros [after Heq]. by exists "", after.
    + intros (before & after & Heq). destruct before; [by exists after|].
      by rewrite append_cons in Heq.
  - rewrite contains_cons, orb_true_iff, IH, startswith_iff. split.
    + intros [[after Heq]|(before & after & Heq)].
      * by exists "", after.
      * exists (String c before), after. by rewrite append_cons, <- Heq.
    + intros (before & after & Heq). destruct before as [|b before].
      * left. by exists after.
      * right. rewrite append_cons in Heq. injection Heq as _ Heq.
        by exists before, after.
Qed.

Lemma contains_equals_cons c s :
  Str.contains "=" (String c s) = Char.eqb c "=" || Str.contains "=" s.
Proof.
  rewrite contains_cons. f_equal. unfold Str.startswith.
  change "=" with (String "="%char "") at 1. rewrite prefix_cons.
  destruct (Ascii.ascii_dec "=" c) as [<-|Hne].
  - rewrite prefix_empty. reflexivity.
  - destruct (Char.eqb c "=") eqn:Heq; [|done].
    apply char_eqb_eq in Heq. by subst.
Qed.

(** Cutting at the first [=] of a token that has one gives a key without
    [=] and a value. *)
Lemma split1_go_spec : forall s before,
  Str.contains "=" s = true ->
  exists key value,
    Str.split1_go "=" before s = [before +:+ key; value]
    /\ s = key +:+ "=" +:+ value
    /\ Str.contains "=" key = false.
Proof.
  induction s as [|c s IH]; intros before Hhas; [done|].
  rewrite contains_equals_cons in Hhas. simpl.
  destruct (Char.eqb c "=") eqn:Hc.
  - apply char_eqb_eq in Hc as ->. exists "", s.
    by rewrite append_empty_r.
  - simpl in Hhas. destruct (IH (Str.snoc before c) Hhas)
      as (key & value & Hgo & -> & Hkey).
    exists (String c key), value. split; [|split].
    + rewrite Hgo. unfold Str.snoc. by rewrite append_assoc.
    + done.
    + by rewrite contains_equals_cons, Hc, Hkey.
Qed.

Lemma split1_spec part :
  Str.contains "=" part = true ->
  exists key value,
    Str.split1 "=" part = [key; value]
    /\ part = key +:+ "=" +:+ value
    /\ Str.contains "=" key = false.
Proof. intros Hhas. by apply (split1_go_spec part ""). Qed.

Lemma split_go_token tok s : tok ≠ "" -> Str.split_go tok s ≠ [].
Proof.
  revert tok. induction s as [|c s IH]; intros tok Htok; simpl.
  - by destruct tok.
  - destruct (Char.is_space c).
    + by destruct tok.
    + apply IH. unfold Str.snoc. by destruct tok.
Qed.

Lemma solid_snoc tok c :
  solid tok = true -> Char.is_space c = false -> solid (Str.snoc tok c) = true.
Proof.
  intros Htok Hc. induction tok as [|d tok IH]; simpl in *.
  - by rewrite Hc.
  - apply andb_prop in Htok as [-> Htok]. by apply IH.
Qed.

Lemma words_of_after_blank c s ws :
  Char.is_space c = true -> words_of s ws -> words_of (String c s) ws.
Proof.
  intros Hc Hws. destruct Hws as [s Hs|gap word after ws Hgap Hne Hw Ha Hws].
  - apply words_done. simpl. by rewrite Hc.
  - rewrite <- append_cons. apply words_next; try done.
    simpl. by rewrite Hc.
Qed.

(** [split] gives the words of the text. *)
Lemma split_go_words : forall s tok,
  solid tok = true -> words_of (tok +:+ s) (Str.split_go tok s).
Proof.
  induction s as [|c s IH]; intros tok Htok; simpl.
  - destruct tok as [|d tok]; [by apply words_done|].
    apply (words_next "" (String d tok) "" []); try done; [by left|].
    by apply words_done.
  - destruct (Char.is_space c) eqn:Hc.
    + assert (words_of (String c s) (Str.split_go "" s)) as Hafter.
      { apply words_of_after_blank; [done|]. by apply (IH ""). }
      destruct tok as [|d tok]; [done|].
      apply (words_next "" (String d tok) (String c s)); try done.
      right. by exists c, s.
    + replace (tok +:+ String c s) with (Str.snoc tok c +:+ s).
      * apply IH. by apply solid_snoc.
      * unfold Str.snoc. by rewrite append_assoc.
Qed.

Lemma split_words s : words_of s (Str.split s).
Proof. by apply (split_go_words s ""). Qed.

(** A text that begins with a non-blank character has a first word. *)
Lemma split_first c s :
  Char.is_space c = false ->
  exists word words, Str.split (String c s) = word :: words.
Proof.
  intros Hc. unfold Str.split. simpl. rewrite Hc.
  destruct (Str.split_go (Str.snoc "" c) s) as [|word words] eqn:Hgo.
  - by apply split_go_token in Hgo.
  - by exists word, words.
Qed.

Lemma grass_command_first cmd :
  is_grass_command cmd = true ->
  exists c s, cmd = String c s /\ Char.is_space c = false.
Proof.
  unfold is_grass_command, Str.startswith_any, Str.startswith.
  destruct cmd as [|c s]; [done|]. intros Hany.
  exists c, s. split; [done|].
  unfold grass_prefixes in Hany. cbn [existsb] in Hany.
  rewrite !prefix_cons in Hany.
  repeat match type of Hany with
         | context [Ascii.ascii_dec ?a c] =>
             destruct (Ascii.ascii_dec a c) as [<-|?]; [reflexivity|]
         end.
  discriminate.
Qed.

(** ** Argument parsing *)

Lemma set_param_pair params part key value :
  Str.split1 "=" part = [key; value] ->
  Str.contains "=" part = true ->
  set_param params part = <[key := value]> params.
Proof. intros Hsplit Hhas. unfold set_param. by rewrite Hhas, Hsplit. Qed.

Lemma set_param_bare params part :
  Str.contains "=" part = false ->
  set_param params part = <["input" := part]> params.
Proof. intros Hhas. unfold set_param. by rewrite Hhas. Qed.

Lemma params_of_snoc args part :
  params_of (args ++ [part]) = set_param (params_of args) part.
Proof. unfold params_of. by rewrite fold_left_app. Qed.

Lemma params_of_assigned args : assigned args (params_of args).
Proof.
  induction args as [|part args IH] using rev_ind; [apply assigned_none|].
  rewrite params_of_snoc. destruct (Str.contains "=" part) eqn:Hhas.
  - destruct (split1_spec part Hhas) as (key & value & Hsplit & -> & Hkey).
    rewrite (set_param_pair _ _ key value Hsplit Hhas).
    by apply assigned_pair.
  - rewrite set_param_bare by done. by apply assigned_bare.
Qed.

(** ** One candidate, then the loop *)

Section RoundProperties.

Context {World : Type} {surroundings : Surroundings World}.

(** The loop over the argument tokens raises nothing, prints nothing and
    leaves the world alone. *)
Lemma parse_params_pure args : forall params (w : World),
  parse_params args params w = (w, [], inr (fold_left set_param args params)).
Proof.
  induction args as [|part args IH]; intros params w; simpl; [done|].
  destruct (Str.contains "=" part) eqn:Hhas.
  - destruct (split1_spec part Hhas) as (key & value & Hsplit & _ & _).
    rewrite (set_param_pair _ _ key value Hsplit Hhas), Hsplit.
    unfold bind. simpl. by rewrite IH.
  - rewrite set_param_bare by done. apply IH.
Qed.

(** A GRASS command calls [gs.read_command] with its first word and the
    parsed arguments; its fate is the answer. *)
Lemma try_body_grass_call cmd (w : World) :
  is_grass_command cmd = true ->
  exists module args,
    Str.split cmd = module :: args
    /\ try_body cmd w
       = match call_read_command module (params_of args) w with
         | (w', inr out) =>
             (w', [CallReadCommand module (params_of args);
                   MsgSuccess; MsgOutput (shorten out)], inr tt)
         | (w', inl b) =>
             (w', [CallReadCommand module (params_of args)], inl b)
         end.
Proof.
  intros Hgrass.
  destruct (grass_command_first cmd Hgrass) as (c & s & -> & Hc).
  destruct (split_first c s Hc) as (module & args & Hsplit).
  exists module, args. split; [done|].
  unfold try_body. rewrite Hgrass, Hsplit. unfold bind. simpl.
  rewrite parse_params_pure. fold (params_of args).
  unfold read_command.
  by destruct (call_read_command module (params_of args) w) as [w' [b|out]].
Qed.

(** A system command runs its words as a subprocess, allowing 60
    seconds. *)
Lemma try_body_system_call cmd (w : World) :
  is_grass_command cmd = false ->
  is_system_command cmd = true ->
  try_body cmd w
  = match call_subprocess_run (Str.split cmd) 60 w with
    | (w', inr result) =>
        if (returncode result =? 0)%Z
        then (w', [CallSubprocessRun (Str.split cmd) 60;
                   MsgSuccess; MsgOutput (shorten (stdout result))], inr tt)
        else (w', [CallSubprocessRun (Str.split cmd) 60;
                   WarnFailed (stderr result)], inr tt)
    | (w', inl b) =>
        (w', [CallSubprocessRun (Str.split cmd) 60], inl b)
    end.
Proof.
  intros Hgrass Hsystem. unfold try_body. rewrite Hgrass, Hsystem.
  unfold bind, run_subprocess.
  destruct (call_subprocess_run (Str.split cmd) 60 w) as [w' [b|result]];
    [done|].
  by destruct (returncode result =? 0)%Z.
Qed.

Lemma try_body_unknown cmd (w : World) :
  is_grass_command cmd = false ->
  is_system_command cmd = false ->
  try_body cmd w = (w, [WarnUnknown cmd], inr tt).
Proof.
  intros Hgrass Hsystem. unfold try_body. by rewrite Hgrass, Hsystem.
Qed.

(** One round: either it ends normally, having printed the announcement,
    done what the candidate's kind asks for and reported one outcome, or
    the call made for the candidate raised what is no [Exception], and the
    round raises it in turn. *)
Lemma dispatch_one_round i cmd (w : World) :
  (exists w' calls o,
      attempted cmd calls o
      /\ dispatch_one (i, cmd) w
         = (w', MsgNumbered i cmd :: calls ++ report cmd o, inr tt))
  \/ (exists w' call b,
        is_exception b = false
        /\ raises_at call w w' b
        /\ dispatch_one (i, cmd) w = (w', [MsgNumbered i cmd; call], inl b)).
Proof.
  unfold dispatch_one, bind, try_except, emit, attempted.
  destruct (is_grass_command cmd) eqn:Hgrass.
  - destruct (try_body_grass_call cmd w Hgrass) as (module & args & _ & ->).
    destruct (call_read_command module (params_of args) w)
      as [w' [[e|status|]|out]] eqn:Hcall.
    + left. exists w', [CallReadCommand module (params_of args)],
        (Errored (str_of e)). simpl. eauto 8.
    + right. exists w', (CallReadCommand module (params_of args)),
        (SystemExit status). by split; [|split; [exact Hcall|]].
    + right. exists w', (CallReadCommand module (params_of args)),
        KeyboardInterrupt. by split; [|split; [exact Hcall|]].
    + left. exists w', [CallReadCommand module (params_of args)],
        (Succeeded (shorten out)). simpl. eauto 8.
  - destruct (is_system_command cmd) eqn:Hsystem.
    + rewrite (try_body_system_call cmd w Hgrass Hsystem).
      destruct (call_subprocess_run (Str.split cmd) 60 w)
        as [w' [[e|status|]|result]] eqn:Hcall.
      * left. exists w', [CallSubprocessRun (Str.split cmd) 60],
          (Errored (str_of e)). simpl. auto.
      * right. exists w', (CallSubprocessRun (Str.split cmd) 60),
          (SystemExit status). by split; [|split; [exact Hcall|]].
      * right. exists w', (CallSubprocessRun (Str.split cmd) 60),
          KeyboardInterrupt. by split; [|split; [exact Hcall|]].
      * destruct (returncode result =? 0)%Z.
        -- left. exists w', [CallSubprocessRun (Str.split cmd) 60],
             (Succeeded (shorten (stdout result))). simpl. auto.
        -- left. exists w', [CallSubprocessRun (Str.split cmd) 60],
             (Failed (stderr result)). simpl. auto.
    + rewrite (try_body_unknown cmd w Hgrass Hsystem).
      left. exists w, [], Unknown. simpl. auto.
Qed.

Lemma for_each_cons {A} (x : A) l (body : A -> M unit) (w : World) :
  for_each (x :: l) body w
  = match body x w with
    | (w1, l1, inl e) => (w1, l1, inl e)
    | (w1, l1, inr _) =>
        match for_each l body w1 with
        | (w2, l2, r) => (w2, l1 ++ l2, r)
        end
    end.
Proof. reflexivity. Qed.

(** The loop: it serves the candidates one after the other until it is
    through or a call raises what is no [Exception]; the candidates before
    that call have been served, and nothing follows the call. *)
Lemma dispatch_from_until cmds : forall i (w : World),
  exists w' log r,
    for_each (enumerate i cmds) dispatch_one w = (w', log, r)
    /\ match r with
       | inr _ => serves i cmds log
       | inl b =>
           is_exception b = false
           /\ exists served cmd later log1 call w0,
                cmds = served ++ cmd :: later
                /\ serves i served log1
                /\ log = log1 ++ [MsgNumbered (i + length served) cmd; call]
                /\ raises_at call w0 w' b
       end.
Proof.
  induction cmds as [|cmd cmds IH]; intros i w.
  - exists w, [], (inr tt). split; [done|apply serves_nil].
  - change (enumerate i (cmd :: cmds))
      with ((i, cmd) :: enumerate (S i) cmds).
    rewrite for_each_cons.
    destruct (dispatch_one_round i cmd w)
      as [(w1 & calls & o & Hcalls & ->)|(w1 & call & b & Hb & Hraise & ->)].
    + destruct (IH (S i) w1) as (w2 & log & r & -> & Hr).
      exists w2, (MsgNumbered i cmd :: calls ++ report cmd o ++ log), r.
      split; [simpl; by rewrite <- app_assoc|].
      destruct r as [b|[]]; [|by apply serves_cons].
      destruct Hr as
        [Hb (served & cmd' & later & log1 & call & w0 & -> & Hs & -> & Hraise)].
      split; [done|].
      exists (cmd :: served), cmd', later,
        (MsgNumbered i cmd :: calls ++ report cmd o ++ log1), call, w0.
      split; [done|]. split; [by apply serves_cons|].
      split; [|done]. simpl. rewrite <- !app_assoc.
      by replace (i + S (length served))%nat with (S i + length served)%nat
        by lia.
    + exists w1, [MsgNumbered i cmd; call], (inl b). split; [done|].
      split; [done|]. exists [], cmd, cmds, [], call, w.
      split; [done|]. split; [apply serves_nil|]. split; [|done].
      simpl. by rewrite Nat.add_0_r.
Qed.

End RoundProperties.

Section DispatchProperties.

Context {World : Type} `{Host World}.

(** A GRASS command calls the host with its first word and the parsed
    arguments; its fate is the host's answer. *)
Lemma try_body_grass cmd (w : World) :
  is_grass_command cmd = true ->
  exists module args,
    Str.split cmd = module :: args
    /\ try_body cmd w
       = match gs_read_command module (params_of args) w with
         | (w', inr out) =>
             (w', [CallReadCommand module (params_of args);
                   MsgSuccess; MsgOutput (shorten out)], inr tt)
         | (w', inl e) =>
             (w', [CallReadCommand module (params_of args)],
              inl (AnException e))
         end.
Proof.
  intros Hgrass.
  destruct (try_body_grass_call cmd w Hgrass) as (module & args & Hsplit & ->).
  exists module, args. split; [done|]. simpl.
  by destruct (gs_read_command module (params_of args) w) as [w' [e|out]].
Qed.

(** A system command runs its words as a subprocess, allowing 60
    seconds. *)
Lemma try_body_system cmd (w : World) :
  is_grass_command cmd = false ->
  is_system_command cmd = true ->
  try_body cmd w
  = match subprocess_run (Str.split cmd) 60 w with
    | (w', inr result) =>
        if (returncode result =? 0)%Z
        then (w', [CallSubprocessRun (Str.split cmd) 60;
                   MsgSuccess; MsgOutput (shorten (stdout result))], inr tt)
        else (w', [CallSubprocessRun (Str.split cmd) 60;
                   WarnFailed (stderr result)], inr tt)
    | (w', inl e) =>
        (w', [CallSubprocessRun (Str.split cmd) 60], inl (AnException e))
    end.
Proof.
  intros Hgrass Hsystem. rewrite (try_body_system_call cmd w Hgrass Hsystem).
  simpl.
  by destruct (subprocess_run (Str.split cmd) 60 w) as [w' [e|result]].
Qed.

(** Whatever the candidate and the collaborators do, one round ends
    normally, having printed the announcement, done what the candidate's
    kind asks for and reported one outcome. *)
Lemma dispatch_one_shape i cmd (w : World) :
  exists w' calls o,
    attempted cmd calls o
    /\ dispatch_one (i, cmd) w
       = (w', MsgNumbered i cmd :: calls ++ report cmd o, inr tt).
Proof.
  unfold dispatch_one, bind, try_except, emit, attempted.
  destruct (is_grass_command cmd) eqn:Hgrass.
  - destruct (try_body_grass cmd w Hgrass) as (module & args & _ & ->).
    destruct (gs_read_command module (params_of args) w) as [w' [e|out]].
    + exists w', [CallReadCommand module (params_of args)],
        (Errored (str_of e)). simpl. eauto 8.
    + exists w', [CallReadCommand module (params_of args)],
        (Succeeded (shorten out)). simpl. eauto 8.
  - destruct (is_system_command cmd) eqn:Hsystem.
    + rewrite (try_body_system cmd w Hgrass Hsystem).
      destruct (subprocess_run (Str.split cmd) 60 w) as [w' [e|result]].
      * exists w', [CallSubprocessRun (Str.split cmd) 60],
          (Errored (str_of e)). simpl. auto.
      * destruct (returncode result =? 0)%Z.
        -- exists w', [CallSubprocessRun (Str.split cmd) 60],
             (Succeeded (shorten (stdout result))). simpl. auto.
        -- exists w', [CallSubprocessRun (Str.split cmd) 60],
             (Failed (stderr result)). simpl. auto.
    + rewrite (try_body_unknown cmd w Hgrass Hsystem).
      exists w, [], Unknown. simpl. auto.
Qed.

Lemma dispatch_from_serves cmds : forall i (w : World),
  exists w' log,
    for_each (enumerate i cmds) dispatch_one w = (w', log, inr tt)
    /\ serves i cmds log.
Proof.
  induction cmds as [|cmd cmds IH]; intros i w.
  - exists w, []. split; [done|apply serves_nil].
  - change (enumerate i (cmd :: cmds))
      with ((i, cmd) :: enumerate (S i) cmds).
    rewrite for_each_cons.
    destruct (dispatch_one_shape i cmd w)
      as (w1 & calls & o & Hcalls & ->).
    destruct (IH (S i) w1) as (w2 & log & -> & Hserves).
    exists w2, (MsgNumbered i cmd :: calls ++ report cmd o ++ log).
    split; [|by apply serves_cons].
    simpl. by rewrite <- app_assoc.
Qed.

End DispatchProperties.

(** ** Classification *)

Lemma is_grass_command_iff cmd : is_grass_command cmd = true <-> namespaced cmd.
Proof.
  unfold is_grass_command, Str.startswith_any, namespaced.
  rewrite existsb_exists. split.
  - intros (p & Hin & Hp). exists p. split; [by apply list_elem_of_In|].
    by apply startswith_iff.
  - intros (p & Hin & Hp). exists p. split; [by apply list_elem_of_In|].
    by apply startswith_iff.
Qed.

Lemma is_system_command_iff cmd : is_system_command cmd = true <-> external cmd.
Proof.
  unfold is_system_command, external.
  rewrite orb_true_iff, startswith_iff, existsb_exists. split.
  - intros [Hgdal|(tool & Hin & Htool)]; [by left|]. right.
    exists tool. split; [by apply list_elem_of_In|]. by apply contains_iff.
  - intros [Hgdal|(tool & Hin & Htool)]; [by left|]. right.
    exists tool. split; [by apply list_elem_of_In|]. by apply contains_iff.
Qed.

Lemma not_grass_command cmd : is_grass_command cmd = false -> ¬ namespaced cmd.
Proof. intros Hno Hyes. apply is_grass_command_iff in Hyes. congruence. Qed.

Lemma not_system_command cmd : is_system_command cmd = false -> ¬ external cmd.
Proof. intros Hno Hyes. apply is_system_command_iff in Hyes. congruence. Qed.

(** ** Arguments of a GRASS command *)

Lemma starts_with_input_equals key value :
  key = "input" -> starts_with (key +:+ "=" +:+ value) "input=".
Proof. intros ->. by exists value. Qed.

(** Tokens that set other keys leave [input] as it is. *)
Lemma input_survives after : forall params part,
  params !! "input" = Some part ->
  Forall (fun t => Str.contains "=" t = true /\ ¬ starts_with t "input=")
    after ->
  fold_left set_param after params !! "input" = Some part.
Proof.
  induction after as [|t after IH]; intros params part Hin Hall; [done|].
  apply Forall_cons in Hall as [[Hhas Hkey] Hall]. simpl.
  apply IH; [|done].
  destruct (split1_spec t Hhas) as (key & value & Hsplit & Heq & _).
  rewrite (set_param_pair _ _ key value Hsplit Hhas).
  rewrite lookup_insert_ne; [done|].
  intros ->. apply Hkey. rewrite Heq. by apply starts_with_input_equals.
Qed.

(** ** Reported output *)

Lemma take_substring n : forall s, Str.take n s = substring 0 n s.
Proof.
  induction n as [|n IH]; intros [|c s]; simpl; try done. by rewrite IH.
Qed.

Lemma take_all n : forall s, (String.length s <= n)%nat -> Str.take n s = s.
Proof.
  induction n as [|n IH]; intros [|c s] Hlen; simpl in *; try done; [lia|].
  rewrite IH; [done|lia].
Qed.

Lemma shorten_spec out :
  ((String.length out <= 500)%nat -> shorten out = out)
  /\ ((500 < String.length out)%nat ->
      shorten out = substring 0 500 out +:+ "...").
Proof.
  unfold shorten. split; intros Hlen.
  - destruct (Nat.ltb_spec 500 (String.length out)); [lia|done].
  - destruct (Nat.ltb_spec 500 (String.length out)); [|lia].
    by rewrite take_substring.
Qed.

(** ** Letter case *)

Lemma lower_idempotent c : Char.lower (Char.lower c) = Char.lower c.
Proof. by destruct c as [[] [] [] [] [] [] [] []]. Qed.

(** ** Texts within Latin-1 *)

(** [text_of] answers exactly for the code points below 256, and every
    text of this development stands for such a sequence. *)
Lemma text_of_within codes :
  is_Some (text_of codes) <-> Forall (fun n => (n < 256)%N) codes.
Proof.
  induction codes as [|n codes IH]; simpl.
  - split; [constructor|by eexists].
  - destruct (N.ltb_spec n 256) as [Hlt|Hge].
    + destruct (text_of codes) as [s|].
      * split; [|by eexists]. intros _. constructor; [done|].
        apply IH. by eexists.
      * split; [by intros [? ?]|]. intros Hall.
        apply Forall_cons in Hall as [_ Hall]. by apply IH in Hall.
    + split; [by intros [? ?]|]. intros Hall.
      apply Forall_cons in Hall as [Hlt _]. lia.
Qed.

Lemma text_of_codes text :
  exists codes, text_of codes = Some text.
Proof.
  induction text as [|c text [codes IH]]; [by exists []|].
  exists (Char.code c :: codes). simpl. rewrite IH.
  assert (Char.code c < 256)%N as Hlt by (unfold Char.code; apply N_ascii_bounded).
  destruct (N.ltb_spec (Char.code c) 256); [|lia].
  unfold Char.code. by rewrite ascii_N_embedding.
Qed.

(** ** Runs of the method on the example host *)

Example run_region_then_bogus :
  dispatch ["g.region"; "bogus.cmd"] 0
  = (1%nat,
     [MsgNumbered 1 "g.region"; CallReadCommand "g.region" ∅; MsgSuccess;
      MsgOutput "projection: 99 (Lambert Conformal Conic)";
      MsgNumbered 2 "bogus.cmd"; WarnUnknown "bogus.cmd"],
     inr tt).
Proof. reflexivity. Qed.

Example run_failing_module_then_tool :
  dispatch ["v.info map=roads"; "gdalinfo dem.tif"; "tar xf dem.tar"] 0
  = (3%nat,
     [MsgNumbered 1 "v.info map=roads";
      CallReadCommand "v.info" {["map" := "roads"]};
      WarnError "v.info map=roads" "Module run failed";
      MsgNumbered 2 "gdalinfo dem.tif";
      CallSubprocessRun ["gdalinfo"; "dem.tif"] 60;
      WarnFailed "ERROR 4: No such file";
      MsgNumbered 3 "tar xf dem.tar";
      CallSubprocessRun ["tar"; "xf"; "dem.tar"] 60;
      MsgSuccess; MsgOutput "tar"],
     inr tt).
Proof. reflexivity. Qed.

Example run_exit_then_info :
  extract "g.list errors=exit r.info"
  = ["g.list errors=exit r.info"; "r.info"]
  /\ dispatch (surroundings := exiting_host)
       ["g.list errors=exit r.info"; "r.info"] 0
     = (1%nat,
        [MsgNumbered 1 "g.list errors=exit r.info";
         CallReadCommand "g.list"
           {["errors" := "exit"; "input" := "r.info"]}],
        inl (SystemExit 1)).
Proof. split; by vm_compute. Qed.

Example bare_tokens_overwrite :
  params_of ["-g"; "elevation"; "map=dem"]
  = {["input" := "elevation"; "map" := "dem"]}.
Proof. by vm_compute. Qed.

Example same_command_twice : extract "g.list, g.list" = ["g.list"].
Proof. by vm_compute. Qed.

Example upper_case_tool_is_unknown :
  extract "TAR xf" = ["TAR"] /\ is_system_command "TAR" = false.
Proof. by vm_compute. Qed.

(** ** [findall] lists the matches from left to right *)

Lemma matches_shrinks r st st' :
  matches r st st' ->
  (String.length (rest st') <= String.length (rest st))%nat
  /\ (consuming r = true ->
      (String.length (rest st') < String.length (rest st))%nat).
Proof.
  induction 1 as
    [st|l c s p g Hacc|c s p g Hacc|c s p g Hacc|c s p g Hacc|st Hb
    |r1 r2 st1 st2 st3 _ [IH1 IH1'] _ [IH2 IH2']
    |r1 r2 st st' _ [IH IH']|r1 r2 st st' _ [IH IH']
    |r st|r st1 st2 st3 _ [IH1 IH1'] Hlt _ [IH2 IH2']|r st st' _ [IH IH']];
    simpl; try (split; [lia|intros; lia]); try (split; [lia|done]).
  - split; [lia|]. intros [Hc|Hc]%orb_true_iff.
    + specialize (IH1' Hc). lia.
    + specialize (IH2' Hc). lia.
  - split; [done|]. intros [Hc _]%andb_prop. by apply IH'.
  - split; [done|]. intros [_ Hc]%andb_prop. by apply IH'.
Qed.

(** What a match consumed, as a piece of the text. *)
Lemma match_here_consumes r p s m :
  consuming r = true ->
  match_here r p s = Some m ->
  exists w, s = w +:+ rest m /\ w ≠ "".
Proof.
  intros Hc Hm. unfold match_here in Hm.
  apply run_sound in Hm as (st' & Hst & [= ->]).
  destruct (matches_suffix _ _ _ Hst) as [w Hw].
  apply matches_shrinks in Hst as [_ Hlt]. specialize (Hlt Hc).
  simpl in *. exists w. split; [done|]. intros ->.
  rewrite append_empty_l in Hw. rewrite Hw in Hlt. lia.
Qed.

Lemma last_or_append p a b : last_or p (a +:+ b) = last_or (last_or p a) b.
Proof.
  revert p. induction a as [|c a IH]; intros p.
  - by rewrite append_empty_l, last_or_empty.
  - by rewrite append_cons, !last_or_cons, IH.
Qed.

(** Passing over the characters of the previous match. *)
Lemma scan_skip r : forall w p s,
  scan r (String.length w) p (w +:+ s) = scan r 0 (last_or p w) s.
Proof.
  induction w as [|c w IH]; intros p s.
  - by rewrite append_empty_l, last_or_empty.
  - rewrite append_cons, last_or_cons. simpl. apply IH.
Qed.

Lemma scan_nothing r : forall s p,
  occurs_from r p s = false -> scan r 0 p s = [].
Proof.
  induction s as [|c s IH]; intros p Hno; simpl in *.
  - by destruct (match_here r p "").
  - destruct (match_here r p (String c s)); [done|]. by apply IH.
Qed.

(** Up to the leftmost match the scan reports nothing. *)
Lemma empty_split a b : "" = a +:+ b -> b = "".
Proof. destruct a; [by rewrite append_empty_l|by rewrite append_cons]. Qed.

Lemma scan_leftmost r : forall s p,
  occurs_from r p s = false
  \/ exists pre post m,
       s = pre +:+ post
       /\ (forall a b, pre = a +:+ b -> b ≠ "" ->
             match_here r (last_or p a) (b +:+ post) = None)
       /\ match_here r (last_or p pre) post = Some m
       /\ scan r 0 p s = scan r 0 (last_or p pre) post.
Proof.
  induction s as [|c s IH]; intros p.
  - destruct (match_here r p "") as [m|] eqn:Hm;
      [|left; simpl; by rewrite Hm].
    right. exists "", "", m. rewrite last_or_empty, Hm.
    split; [done|]. split; [|by split]. intros a b Hab Hb.
    by apply empty_split in Hab.
  - destruct (match_here r p (String c s)) as [m|] eqn:Hm.
    + right. exists "", (String c s), m. rewrite last_or_empty, Hm.
      split; [done|]. split; [|by split]. intros a b Hab Hb.
      by apply empty_split in Hab.
    + destruct (IH (Some c)) as [Hno|(pre & post & m & -> & Hpre & Hpost & Hscan)].
      * left. simpl. by rewrite Hm.
      * right. exists (String c pre), post, m. rewrite last_or_cons.
        split; [done|]. split; [|split; [done|]].
        -- intros a b Hab Hb. destruct a as [|c' a].
           ++ rewrite append_empty_l in Hab. subst b.
              by rewrite last_or_empty.
           ++ rewrite append_cons in Hab. injection Hab as <- ->.
              rewrite last_or_cons. by apply Hpre.
        -- simpl. by rewrite Hm.
Qed.

Lemma scan_finds r :
  consuming r = true ->
  forall n s p, (String.length s <= n)%nat -> finds r p s (scan r 0 p s).
Proof.
  intros Hc. induction n as [|n IH]; intros s p Hlen.
  - destruct s; [|simpl in Hlen; lia].
    destruct (match_here r p "") as [m|] eqn:Hm.
    + apply (match_here_consumes _ _ _ _ Hc) in Hm as (w & Hw & Hne).
      destruct w; [done|by rewrite append_cons in Hw].
    + assert (occurs_from r p "" = false) as Hno by (simpl; by rewrite Hm).
      rewrite scan_nothing by done. by apply finds_nothing.
  - destruct (scan_leftmost r s p)
      as [Hno|(pre & post & m & -> & Hpre & Hpost & ->)].
    + rewrite scan_nothing by done. by apply finds_nothing.
    + destruct (match_here_consumes _ _ _ _ Hc Hpost) as (w & -> & Hne).
      destruct w as [|c w]; [done|].
      assert (scan r 0 (last_or p pre) (String c w +:+ rest m)
              = group1 m :: scan r 0 (last_or p (pre +:+ String c w)) (rest m))
        as ->.
      { rewrite append_cons. simpl. rewrite append_cons in Hpost.
        rewrite Hpost, length_append.
        replace (S (String.length w + String.length (rest m))
                 - String.length (rest m) - 1)%nat
          with (String.length w) by lia.
        by rewrite scan_skip, last_or_append, last_or_cons. }
      apply finds_leftmost; [done..|].
      apply IH. rewrite !length_append in Hlen. simpl in Hlen. lia.
Qed.

(** For a pattern whose matches are never empty, [findall] reports the
    matches from left to right. *)
Lemma findall_finds r text :
  consuming r = true -> finds r None text (findall r text).
Proof. intros Hc. by apply (scan_finds r Hc (String.length text)). Qed.

(* ===================================================================== *)
(** * The properties the specification states *)
(* ===================================================================== *)

(** ** The dispatch loop *)

(** C1, as the specification states it, fails: it is not so that the loop
    serves every candidate whatever the surroundings do.  The text
    "g.list errors=exit r.info" gives the candidates
    "g.list errors=exit r.info" and "r.info"; where the module [g.list]
    fails, the call made for the first one ends the process with
    [SystemExit], which the clause [except Exception] does not handle, and
    the second candidate is never attempted. *)
Lemma exit_ends_the_loop :
  ¬ (forall (World : Type) (surroundings : Surroundings World)
       (cmds : list string) (w : World),
       exists w' log,
         dispatch cmds w = (w', log, inr tt) /\ serves 1 cmds log).
Proof.
  intros Hall.
  destruct (Hall nat exiting_host ["g.list errors=exit r.info"; "r.info"]
              0%nat) as (w' & log & Hrun & _).
  destruct run_exit_then_info as [_ Hexit]. rewrite Hexit in Hrun.
  discriminate Hrun.
Qed.

(** C1 (amended): whatever the candidates are and whatever the
    surroundings do, the loop serves the candidates in the order of the
    input: for each, numbered from 1, the announcement, what its kind asks
    for, and exactly one outcome (success, process failure, unknown type,
    or the [Exception] raised, which never keeps a later candidate from
    being served).  The loop ends normally, having served them all, unless
    a call raises what is no [Exception] ([SystemExit] or
    [KeyboardInterrupt]): then the loop raises it in turn, every candidate
    before has been served, the candidate of that call has been announced
    and nothing is done after the call.  That is the only way for the loop
    not to serve them all. *)
Theorem dispatch_serves_until_exit {World : Type}
  {surroundings : Surroundings World} (cmds : list string) (w : World) :
  exists w' log r,
    dispatch cmds w = (w', log, r)
    /\ match r with
       | inr _ => serves 1 cmds log
       | inl b =>
           is_exception b = false
           /\ exists served cmd later log1 call w0,
                cmds = served ++ cmd :: later
                /\ serves 1 served log1
                /\ log = log1 ++ [MsgNumbered (1 + length served) cmd; call]
                /\ raises_at call w0 w' b
       end
    /\ ((forall call w0 w1 b,
           raises_at call w0 w1 b -> is_exception b = true) ->
        r = inr tt).
Proof.
  destruct (dispatch_from_until cmds 1 w) as (w' & log & r & Hrun & Hr).
  exists w', log, r. split; [exact Hrun|]. split; [exact Hr|].
  intros Hnever. destruct r as [b|[]]; [|done].
  destruct Hr as [Hb (_ & _ & _ & _ & call & w0 & _ & _ & _ & Hraise)].
  apply Hnever in Hraise. congruence.
Qed.

(** C2: one round decides by three rules that exclude one another, in
    this order: a candidate that starts with a namespace prefix makes one
    call of the host's command interface; otherwise one that starts with
    [gdal] or contains a Linux tool name makes one subprocess call;
    otherwise the round only reports an unknown command type, calls
    nothing and leaves the world as it was. *)
Theorem classification_rules {World : Type} `{Host World}
  (i : nat) (cmd : string) (w : World) :
  exists w' log,
    dispatch_one (i, cmd) w = (w', log, inr tt)
    /\ ((namespaced cmd
         /\ exists module params,
              List.filter is_call log = [CallReadCommand module params])
        \/ (¬ namespaced cmd /\ external cmd
            /\ List.filter is_call log
               = [CallSubprocessRun (Str.split cmd) 60])
        \/ (¬ namespaced cmd /\ ¬ external cmd
            /\ w' = w
            /\ log = [MsgNumbered i cmd; WarnUnknown cmd])).
Proof.
  destruct (dispatch_one_shape i cmd w) as (w' & calls & o & Hdone & Heq).
  unfold attempted in Hdone.
  destruct (is_grass_command cmd) eqn:Hgrass.
  - destruct Hdone as [(module & params & ->) (text & Ho)].
    exists w'. eexists. split; [exact Heq|]. left.
    split; [by apply is_grass_command_iff|]. exists module, params.
    by destruct Ho as [-> | ->].
  - apply not_grass_command in Hgrass as Hnot.
    destruct (is_system_command cmd) eqn:Hsystem.
    + destruct Hdone as [-> Ho].
      exists w'. eexists. split; [exact Heq|]. right. left.
      split; [done|]. split; [by apply is_system_command_iff|].
      by destruct o.
    + apply not_system_command in Hsystem as Hnot'.
      unfold dispatch_one, bind, try_except, emit in *.
      rewrite (try_body_unknown cmd w Hgrass Hsystem) in *.
      exists w. eexists. split; [reflexivity|]. right. right. done.
Qed.

(** ** Extraction *)

(** C3, as the specification states it, fails: on the scenario text the
    result is not the pair ["g.region"], ["r.info map=elevation"]. *)
Lemma scenario_not_as_specified :
  extract "Run g.region -p and then r.info map=elevation"
  ≠ ["g.region"; "r.info map=elevation"].
Proof. vm_compute. discriminate. Qed.

(** C3 (amended): on the text "Run g.region -p and then r.info
    map=elevation" extraction returns two candidates in this order: the
    [g.] match, which takes in every whitespace-separated token after
    [g.region] up to the end of the text, and then the [r.] match
    "r.info map=elevation" with its argument. *)
Theorem scenario_extract :
  extract "Run g.region -p and then r.info map=elevation"
  = ["g.region -p and then r.info map=elevation"; "r.info map=elevation"].
Proof. vm_compute. reflexivity. Qed.

(** C4: the candidates are the matches of the seven module families, then
    of the GDAL family, then of the Linux tools, each family's matches
    listed from left to right as they stand in the text, with every string
    kept at its first occurrence only and the order otherwise unchanged;
    so no candidate is repeated, and every matched string appears exactly
    once. *)
Theorem extract_keeps_first_occurrences (response : string) :
  extract response = first_occurrences (all_matches response)
  /\ (forall r, r ∈ command_patterns ->
        finds r None response (findall r response))
  /\ NoDup (extract response)
  /\ (forall c, c ∈ extract response <-> c ∈ all_matches response)
  /\ (forall c, c ∈ all_matches response ->
        exists before after,
          extract response = before ++ c :: after
          /\ (c ∉ before) /\ (c ∉ after)).
Proof.
  assert (forall c, c ∈ extract response <-> c ∈ all_matches response) as Hsame.
  { intros c. rewrite extract_spec. unfold first_occurrences.
    rewrite first_occurrences_from_elem, elem_of_nil. tauto. }
  assert (NoDup (extract response)) as Hnodup.
  { rewrite extract_spec. apply first_occurrences_from_NoDup. }
  split; [apply extract_spec|]. split.
  { intros r Hr. apply findall_finds.
    repeat (apply elem_of_cons in Hr as [->|Hr]; [reflexivity|]).
    by apply elem_of_nil in Hr. }
  split; [exact Hnodup|]. split; [exact Hsame|].
  intros c Hc. apply Hsame in Hc.
  apply list_elem_of_split in Hc as (before & after & Heq).
  exists before, after. split; [exact Heq|].
  rewrite Heq in Hnodup. apply NoDup_app in Hnodup as (_ & Hcross & Hafter).
  apply NoDup_cons in Hafter as [Hafter _]. split; [|exact Hafter].
  intros Hin. apply (Hcross c Hin). by left.
Qed.

(** C5: when no pattern of [command_patterns] matches anywhere in the
    text, extraction returns the empty list ([extract] is a total
    function: nothing is raised). *)
Theorem extract_nothing_recognized (response : string) :
  (forall r, r ∈ command_patterns -> ¬ occurs r response) ->
  extract response = [].
Proof.
  intros Hno. rewrite extract_spec, all_matches_concat.
  assert (concat (map (fun pattern => findall pattern response)
                    command_patterns) = []) as ->; [|done].
  induction command_patterns as [|p ps IH]; simpl; [done|].
  rewrite findall_nil, IH; [done| |].
  - intros r Hr. apply Hno. by right.
  - apply Hno. by left.
Qed.

Lemma extract_nothing_recognized_witness :
  extract "" = [] /\ extract "Please show the current region." = [].
Proof.
  split; apply extract_nothing_recognized; intros r Hr;
    rewrite occurs_iff;
    repeat (apply elem_of_cons in Hr as [->|Hr]; [by vm_compute|]);
    by apply elem_of_nil in Hr.
Defined.

(** ** The two backends *)

(** C6: a GRASS command is split into words; the first is the module, the
    others are read left to right into the keyword arguments, a token
    with [=] cut at its first [=] into key and value, a token without
    [=] stored under [input]; this raises nothing, and of several tokens
    without [=] the last one is what [input] holds (unless a later token
    sets [input] by name).  The host is then called with that module and
    those arguments. *)
Theorem grass_command_arguments {World : Type} `{Host World}
  (cmd : string) (w : World) :
  is_grass_command cmd = true ->
  exists module args params,
    Str.split cmd = module :: args
    /\ words_of cmd (module :: args)
    /\ parse_params args ∅ w = (w, [], inr params)
    /\ assigned args params
    /\ (forall before part after,
          args = before ++ part :: after ->
          Str.contains "=" part = false ->
          Forall (fun t => Str.contains "=" t = true
                           /\ ¬ starts_with t "input=") after ->
          params !! "input" = Some part)
    /\ exists w' tail r,
         try_body cmd w = (w', CallReadCommand module params :: tail, r).
Proof.
  intros Hgrass.
  destruct (try_body_grass cmd w Hgrass) as (module & args & Hsplit & Hbody).
  exists module, args, (params_of args).
  split; [done|]. split; [rewrite <- Hsplit; apply split_words|].
  split; [apply parse_params_pure|].
  split; [apply params_of_assigned|]. split.
  - intros before part after -> Hbare Hafter.
    unfold params_of. rewrite fold_left_app. simpl.
    apply input_survives; [|done].
    rewrite set_param_bare by done. apply lookup_insert_eq.
  - rewrite Hbody.
    destruct (gs_read_command module (params_of args) w) as [w' [e|out]];
      by eexists _, _, _.
Qed.

Lemma grass_command_arguments_witness :
  exists module args params,
    Str.split "r.info -g elevation map=dem" = module :: args
    /\ words_of "r.info -g elevation map=dem" (module :: args)
    /\ parse_params (World := nat) args ∅ 0 = (0, [], inr params)
    /\ assigned args params
    /\ (forall before part after,
          args = before ++ part :: after ->
          Str.contains "=" part = false ->
          Forall (fun t => Str.contains "=" t = true
                           /\ ¬ starts_with t "input=") after ->
          params !! "input" = Some part)
    /\ exists w' tail r,
         try_body "r.info -g elevation map=dem" 0
         = (w', CallReadCommand module params :: tail, r).
Proof.
  apply (grass_command_arguments "r.info -g elevation map=dem" 0).
  reflexivity.
Defined.

(** C7: a system command is run as a subprocess that is allowed 60
    seconds.  When the subprocess exits with a status other than 0 the
    round reports the failure with the captured standard error; when it
    runs out of time the round reports the error with the exception's
    message; in both cases (and in any other) the round ends normally and
    the loop goes on to serve all the remaining candidates. *)
Theorem system_command_failure {World : Type} `{Host World}
  (i : nat) (cmd : string) (cmds : list string) (w : World) :
  is_grass_command cmd = false ->
  is_system_command cmd = true ->
  exists w1 answer o,
    subprocess_run (Str.split cmd) 60 w = (w1, answer)
    /\ dispatch_one (i, cmd) w
       = (w1, MsgNumbered i cmd
               :: CallSubprocessRun (Str.split cmd) 60 :: report cmd o,
          inr tt)
    /\ (forall result, answer = inr result ->
          returncode result ≠ 0%Z -> o = Failed (stderr result))
    /\ (forall msg, answer = inl (TimeoutExpired msg) -> o = Errored msg)
    /\ exists w2 log,
         for_each (enumerate (S i) cmds) dispatch_one w1 = (w2, log, inr tt)
         /\ serves (S i) cmds log
         /\ for_each (enumerate i (cmd :: cmds)) dispatch_one w
            = (w2, MsgNumbered i cmd
                    :: CallSubprocessRun (Str.split cmd) 60
                    :: report cmd o ++ log,
               inr tt).
Proof.
  intros Hgrass Hsystem.
  destruct (subprocess_run (Str.split cmd) 60 w) as [w1 answer] eqn:Hrun.
  assert (exists o,
    dispatch_one (i, cmd) w
    = (w1, MsgNumbered i cmd
            :: CallSubprocessRun (Str.split cmd) 60 :: report cmd o, inr tt)
    /\ (forall result, answer = inr result ->
          returncode result ≠ 0%Z -> o = Failed (stderr result))
    /\ (forall msg, answer = inl (TimeoutExpired msg) -> o = Errored msg))
    as (o & Hone & Hfail & Htime).
  { unfold dispatch_one, bind, try_except, emit.
    rewrite (try_body_system cmd w Hgrass Hsystem), Hrun.
    destruct answer as [e|result].
    - exists (Errored (str_of e)). split; [done|]. split; [done|].
      by intros msg [= ->].
    - destruct (returncode result =? 0)%Z eqn:Hrc.
      + exists (Succeeded (shorten (stdout result))). split; [done|].
        split; [|done]. intros result' [= <-] Hne.
        by apply Z.eqb_eq in Hrc.
      + exists (Failed (stderr result)). split; [done|].
        split; [|done]. by intros result' [= <-] _. }
  exists w1, answer, o. split; [done|]. split; [done|].
  split; [done|]. split; [done|].
  destruct (dispatch_from_serves cmds (S i) w1) as (w2 & log & Hloop & Hserves).
  exists w2, log. split; [done|]. split; [done|].
  change (enumerate i (cmd :: cmds)) with ((i, cmd) :: enumerate (S i) cmds).
  by rewrite for_each_cons, Hone, Hloop.
Qed.

Lemma system_command_failure_witness :
  (exists w1 w2 log,
     dispatch_one (1, "gdalinfo map.tif") 0
     = (w1, [MsgNumbered 1 "gdalinfo map.tif";
             CallSubprocessRun ["gdalinfo"; "map.tif"] 60;
             WarnFailed "ERROR 4: No such file"], inr tt)
     /\ for_each (enumerate 2 ["g.region"]) dispatch_one w1
        = (w2, log, inr tt)
     /\ serves 2 ["g.region"] log)
  /\ (exists w1 w2 log,
        dispatch_one (1, "wget http://example.org/dem.zip") 0
        = (w1, [MsgNumbered 1 "wget http://example.org/dem.zip";
                CallSubprocessRun ["wget"; "http://example.org/dem.zip"] 60;
                WarnError "wget http://example.org/dem.zip"
                  "timed out after 60 seconds"], inr tt)
        /\ for_each (enumerate 2 ["g.region"]) dispatch_one w1
           = (w2, log, inr tt)
        /\ serves 2 ["g.region"] log).
Proof.
  split.
  - destruct (system_command_failure 1 "gdalinfo map.tif" ["g.region"] 0)
      as (w1 & answer & o & Hrun & Hone & Hfail & _ & w2 & log & Hloop & Hs & _);
      [reflexivity | reflexivity |].
    injection Hrun as <- <-.
    rewrite (Hfail _ eq_refl) in Hone by done.
    by exists 1%nat, w2, log.
  - destruct (system_command_failure 1 "wget http://example.org/dem.zip"
                ["g.region"] 0)
      as (w1 & answer & o & Hrun & Hone & _ & Htime & w2 & log & Hloop & Hs & _);
      [reflexivity | reflexivity |].
    injection Hrun as <- <-.
    rewrite (Htime _ eq_refl) in Hone.
    by exists 1%nat, w2, log.
Defined.

(** C8: when a candidate succeeds (the host returns text for a GRASS
    command, or the subprocess of a system command exits with status 0),
    the round prints the success mark followed by the output: all of it
    when it has at most 500 characters, otherwise its first 500
    characters followed by three dots. *)
Theorem success_output_shortened {World : Type} `{Host World}
  (i : nat) (cmd : string) (w : World) (out : string) :
  succeeds cmd w out ->
  exists w' call shown,
    dispatch_one (i, cmd) w
    = (w', [MsgNumbered i cmd; call; MsgSuccess; MsgOutput shown], inr tt)
    /\ is_call call = true
    /\ ((String.length out <= 500)%nat -> shown = out)
    /\ ((500 < String.length out)%nat ->
        shown = substring 0 500 out +:+ "...").
Proof.
  intros [(Hgrass & module & args & w' & Hsplit & Hcall)
         |(Hgrass & Hsystem & w' & result & Hrun & Hrc & Hout)];
    unfold dispatch_one, bind, try_except, emit.
  - destruct (try_body_grass cmd w Hgrass) as (module' & args' & Hsplit' & ->).
    rewrite Hsplit in Hsplit'. injection Hsplit' as <- <-. rewrite Hcall.
    exists w', (CallReadCommand module (params_of args)), (shorten out).
    split; [done|]. split; [done|]. apply shorten_spec.
  - rewrite (try_body_system cmd w Hgrass Hsystem), Hrun, Hrc. simpl.
    exists w', (CallSubprocessRun (Str.split cmd) 60), (shorten out).
    rewrite Hout. split; [done|]. split; [done|]. apply shorten_spec.
Qed.

Lemma success_output_shortened_witness :
  exists w' call shown,
    dispatch_one (1, "g.region -p") 0
    = (w', [MsgNumbered 1 "g.region -p"; call; MsgSuccess; MsgOutput shown],
       inr tt)
    /\ is_call call = true
    /\ ((String.length "projection: 99 (Lambert Conformal Conic)" <= 500)%nat
        -> shown = "projection: 99 (Lambert Conformal Conic)")
    /\ ((500 < String.length "projection: 99 (Lambert Conformal Conic)")%nat
        -> shown
           = substring 0 500 "projection: 99 (Lambert Conformal Conic)"
             +:+ "...").
Proof.
  apply (success_output_shortened 1 "g.region -p" 0).
  left. split; [reflexivity|].
  exists "g.region", ["-p"], 1%nat. split; reflexivity.
Defined.

(** ** Letter case and the Linux tools *)

(** C9: a pattern literal accepts a character exactly when it accepts its
    lower-case form, so extraction ignores letter case, whereas the prefix
    test of the classification does not: "g.region" passes it and
    "G.region" fails it.  On the text "G.region" extraction therefore
    produces the candidate "G.region", and the method reports it as an
    unknown command type, calls neither collaborator and leaves the world
    as it was. *)
Theorem case_mismatch_goes_unknown {World : Type} `{Host World} (w : World) :
  (forall l c, accepts (Lit l) (Char.lower c) = accepts (Lit l) c)
  /\ is_grass_command "g.region" = true
  /\ is_grass_command "G.region" = false
  /\ extract "G.region" = ["G.region"]
  /\ extract_and_execute_commands "G.region" w
     = (w, [MsgExecuting 1; MsgNumbered 1 "G.region"; WarnUnknown "G.region"],
        inr ["G.region"]).
Proof.
  split.
  { intros l c. simpl. unfold Char.ieqb. by rewrite lower_idempotent. }
  split; [reflexivity|]. split; [reflexivity|].
  assert (extract "G.region" = ["G.region"]) as Hextract
    by (vm_compute; reflexivity).
  split; [exact Hextract|].
  unfold extract_and_execute_commands. rewrite Hextract. reflexivity.
Qed.




(* ===================================================================== *)
(** * Further properties of the code *)
(* ===================================================================== *)

(** ** The shape of a candidate *)

Lemma lower_string_append s t :
  lower_string (s +:+ t) = lower_string s +:+ lower_string t.
Proof.
  induction s as [|c s IH]; [done|].
  rewrite append_cons. simpl. by rewrite IH, append_cons.
Qed.

Lemma lower_string_length s : String.length (lower_string s) = String.length s.
Proof. induction s as [|c s IH]; simpl; by rewrite ?IH. Qed.

Lemma lower_is_word c : Char.is_word (Char.lower c) = Char.is_word c.
Proof. by destruct c as [[] [] [] [] [] [] [] []]. Qed.

Lemma lower_is_space c : Char.is_space (Char.lower c) = Char.is_space c.
Proof. by destruct c as [[] [] [] [] [] [] [] []]. Qed.

Lemma lower_is_dot c : Char.lower c = "."%char -> c = "."%char.
Proof. destruct c as [[] [] [] [] [] [] [] []]; by vm_compute. Qed.

Lemma word_not_space c : Char.is_word c = true -> Char.is_space c = false.
Proof. by destruct c as [[] [] [] [] [] [] [] []]. Qed.

Lemma every_append P s t : every P (s +:+ t) = every P s && every P t.
Proof.
  induction s as [|c s IH]; [done|].
  rewrite append_cons. simpl. by rewrite IH, andb_assoc.
Qed.

Lemma every_impl (P Q : ascii -> bool) s :
  (forall c, P c = true -> Q c = true) -> every P s = true -> every Q s = true.
Proof.
  intros HPQ. induction s as [|c s IH]; simpl; [done|].
  intros [Hc Hs]%andb_prop. by rewrite (HPQ c Hc), IH.
Qed.

(** What a sequence consumes is what its parts consume, one after the
    other. *)
Lemma matches_seq_inv r1 r2 st st' :
  matches (Seq r1 r2) st st' ->
  exists st1 w1 w2,
    matches r1 st st1 /\ matches r2 st1 st'
    /\ rest st = w1 +:+ rest st1 /\ rest st1 = w2 +:+ rest st'.
Proof.
  intros Hm. inversion Hm as [| | | | | |? ? ? st1 ? H1 H2| | | | |]; subst.
  destruct (matches_suffix _ _ _ H1) as [w1 Hw1].
  destruct (matches_suffix _ _ _ H2) as [w2 Hw2].
  by exists st1, w1, w2.
Qed.

(** A repeated one-character item consumes characters it accepts. *)
Lemma matches_star_item r st st' :
  (forall a b, matches r a b ->
     exists c, rest a = String c (rest b) /\ accepts r c = true) ->
  matches (Star r) st st' ->
  exists w, rest st = w +:+ rest st' /\ every (accepts r) w = true.
Proof.
  intros Hitem Hm. remember (Star r) as sr eqn:Hsr.
  induction Hm as
    [| | | | | | | |
     |r0 st|r0 st1 st2 st3 Hround _ Hlt Hrest IH|]; try discriminate.
  - by exists "".
  - injection Hsr as ->. destruct (IH eq_refl) as (w & Hw & Hall).
    destruct (Hitem _ _ Hround) as (c & Hc & Hacc).
    exists (String c w). split; [by rewrite Hc, Hw|].
    simpl. by rewrite Hacc, Hall.
Qed.

Lemma matches_item_char r a b :
  match r with WordChar | SpaceChar | NonSpace => True | _ => False end ->
  matches r a b ->
  exists c, rest a = String c (rest b) /\ accepts r c = true.
Proof.
  intros Hr Hm. destruct r; try done; inversion Hm; subst; by eexists.
Qed.

Lemma matches_plus_item r st st' :
  match r with WordChar | SpaceChar | NonSpace => True | _ => False end ->
  matches (Plus r) st st' ->
  exists c w,
    rest st = String c w +:+ rest st'
    /\ every (accepts r) (String c w) = true.
Proof.
  intros Hr Hm. unfold Plus in Hm.
  apply matches_seq_inv in Hm as (st1 & _ & _ & H1 & H2 & _ & _).
  destruct (matches_item_char r _ _ Hr H1) as (c & Hc & Hacc).
  apply matches_star_item in H2 as (w & Hw & Hall);
    [|intros a b; by apply matches_item_char].
  exists c, w. split; [by rewrite Hc, Hw|]. simpl. by rewrite Hacc, Hall.
Qed.

Lemma last_char_append a b : b ≠ "" -> last_char (a +:+ b) = last_char b.
Proof.
  intros Hb. rewrite <- !last_or_none, last_or_append.
  destruct b as [|c b]; [done|]. unfold last_or at 1 3.
  by destruct (last_char_cons_some c b) as [d ->].
Qed.

Lemma every_last P c s :
  every P (String c s) = true ->
  exists d, last_char (String c s) = Some d /\ P d = true.
Proof.
  revert c. induction s as [|c' s IH]; intros c Hall.
  - simpl in *. exists c. by rewrite andb_true_r in Hall.
  - apply andb_prop in Hall as [_ Hall]. by apply IH in Hall.
Qed.

Lemma matches_arguments st st' :
  matches arguments st st' ->
  exists w, rest st = w +:+ rest st' /\ argument_text w.
Proof.
  unfold arguments. intros Hm.
  remember (Star (Seq (Plus SpaceChar) (Plus NonSpace))) as sr eqn:Hsr.
  induction Hm as
    [| | | | | | | |
     |r0 st|r0 st1 st2 st3 Hround _ Hlt Hrest IH|]; try discriminate.
  - exists "". split; [done|by left].
  - injection Hsr as ->. destruct (IH eq_refl) as (w & Hw & Hshape).
    apply matches_seq_inv in Hround as (st' & _ & _ & Hsp & Hns & _ & _).
    apply matches_plus_item in Hsp as (a & sp & Hsp & Hall_sp); [|done].
    apply matches_plus_item in Hns as (d & ns & Hns & Hall_ns); [|done].
    exists (String a sp +:+ String d ns +:+ w). split.
    { by rewrite Hsp, Hns, Hw, !append_assoc. }
    right. simpl in Hall_sp. apply andb_prop in Hall_sp as [Ha _].
    destruct (every_last _ _ _ Hall_ns) as (e & He & Hacc).
    simpl in Hacc. apply negb_true_iff, orb_false_iff in Hacc as [Hacc _].
    destruct Hshape as [->|(a' & w' & e' & -> & _ & He' & Hsolid)].
    + exists a, (sp +:+ String d ns +:+ ""), e.
      rewrite append_empty_r, append_cons. split; [done|]. split; [done|].
      rewrite <- append_cons. by rewrite last_char_append.
    + exists a, (sp +:+ String d ns +:+ String a' w'), e'.
      rewrite append_cons. split; [done|]. split; [done|].
      rewrite <- append_cons, <- append_assoc.
      by rewrite last_char_append.
Qed.

(** A candidate of a module family: the prefix in any letter case, a dot,
    a name of word characters, and the text of the arguments. *)
Lemma module_candidate_shape prefix text c :
  c ∈ findall (module_pattern prefix) text ->
  exists w name args,
    c = w +:+ "." +:+ name +:+ args
    /\ lower_string w = lower_string prefix
    /\ name ≠ "" /\ every Char.is_word name = true
    /\ argument_text args.
Proof.
  intros Hin.
  apply findall_reports in Hin as (pre & post & m & _ & Hm & ->).
  unfold match_here in Hm. apply run_sound in Hm as (st' & Hst & [= ->]).
  unfold module_pattern in Hst.
  inversion Hst as [| | | | | |? ? ? st1 ? Hb Hgroup| | | | |]; subst.
  inversion Hb; subst.
  inversion Hgroup as [| | | | | | | | | | |? ? st2 Hbody]; subst.
  unfold group1. simpl.
  apply matches_seq_inv in Hbody as (s1 & w1 & _ & Hlits & Hbody & Hw1 & _).
  apply matches_seq_inv in Hbody as (s2 & _ & _ & Hdot & Hbody & _ & _).
  apply matches_seq_inv in Hbody as (s3 & _ & _ & Hname & Hargs & _ & _).
  apply matches_lits in Hlits as (w & Hw & Hlow).
  inversion Hdot as [|? dot s p g Hacc Heq1 Heq2| | | | | | | | | |]; subst.
  simpl in Hacc. apply char_eqb_eq in Hacc. symmetry in Hacc.
  apply lower_is_dot in Hacc as ->.
  apply matches_plus_item in Hname as (n & name & Hname & Hall); [|done].
  apply matches_arguments in Hargs as (args & Hargs & Hshape).
  simpl in *. exists w, (String n name), args.
  split; [|split; [done|split; [done|split; [exact Hall|done]]]].
  assert (post = (w +:+ "." +:+ String n name +:+ args) +:+ rest st2) as ->.
  { by rewrite Hw, Hname, Hargs, !append_assoc. }
  apply consumed_append.
Qed.

(** A candidate of the GDAL family: [gdal] in any letter case, more word
    characters, and the text of the arguments. *)
Lemma gdal_candidate_shape text c :
  c ∈ findall gdal_pattern text ->
  exists w name args,
    c = w +:+ name +:+ args
    /\ lower_string w = "gdal"
    /\ name ≠ "" /\ every Char.is_word name = true
    /\ argument_text args.
Proof.
  intros Hin.
  apply findall_reports in Hin as (pre & post & m & _ & Hm & ->).
  unfold match_here in Hm. apply run_sound in Hm as (st' & Hst & [= ->]).
  unfold gdal_pattern in Hst.
  inversion Hst as [| | | | | |? ? ? st1 ? Hb Hgroup| | | | |]; subst.
  inversion Hb; subst.
  inversion Hgroup as [| | | | | | | | | | |? ? st2 Hbody]; subst.
  unfold group1. simpl.
  apply matches_seq_inv in Hbody as (s1 & _ & _ & Hlits & Hbody & _ & _).
  apply matches_seq_inv in Hbody as (s3 & _ & _ & Hname & Hargs & _ & _).
  apply (matches_lits "gdal") in Hlits as (w & Hw & Hlow).
  apply matches_plus_item in Hname as (n & name & Hname & Hall); [|done].
  apply matches_arguments in Hargs as (args & Hargs & Hshape).
  simpl in *. exists w, (String n name), args.
  split; [|split; [done|split; [done|split; [exact Hall|done]]]].
  assert (post = (w +:+ String n name +:+ args) +:+ rest st2) as ->.
  { by rewrite Hw, Hname, Hargs, !append_assoc. }
  apply consumed_append.
Qed.

(** A candidate of the Linux tools, in lower case, is the name of one. *)
Lemma linux_candidate_lower text c :
  c ∈ findall linux_pattern text -> lower_string c ∈ linux_tools.
Proof.
  intros Hin.
  apply findall_reports in Hin as (pre & post & m & _ & Hm & ->).
  unfold match_here in Hm. apply run_sound in Hm as (st' & Hst & [= ->]).
  unfold linux_pattern in Hst.
  inversion Hst as [| | | | | |? ? ? st1 ? Hb Hrest| | | | |]; subst.
  inversion Hb; subst.
  apply matches_seq_inv in Hrest as (st2 & _ & _ & Hgroup & Hargs & _ & _).
  inversion Hgroup as [| | | | | | | | | | |? ? st3 Halt]; subst.
  apply matches_groupless in Hargs; [|done].
  unfold group1. rewrite Hargs. simpl.
  apply (matches_alternatives linux_tools) in Halt
    as (tool & Htool & Hlits); [|done].
  apply matches_lits in Hlits as (w & Hw & Hlow). simpl in Hw.
  rewrite Hw, consumed_append, Hlow.
  apply list_elem_of_In in Htool. simpl in Htool.
  repeat (destruct Htool as [<-|Htool];
          [by vm_compute; apply list_elem_of_In; simpl; tauto|]).
  done.
Qed.

(** Every candidate is a match of one of the nine families. *)
Lemma extract_family response c :
  c ∈ extract response ->
  (exists p, p ∈ module_prefixes /\ c ∈ findall (module_pattern p) response)
  \/ c ∈ findall gdal_pattern response
  \/ c ∈ findall linux_pattern response.
Proof.
  rewrite extract_spec. unfold first_occurrences.
  rewrite first_occurrences_from_elem. intros [Hin _].
  unfold all_matches in Hin. rewrite !elem_of_app in Hin.
  unfold module_prefixes.
  repeat (destruct Hin as [Hin|Hin];
          [left; eexists; split; [|exact Hin];
           apply list_elem_of_In; simpl; tauto|]).
  tauto.
Qed.

Lemma startswith_append s t : Str.startswith (s +:+ t) s = true.
Proof. apply startswith_iff. by exists t. Qed.

(** In lower case every candidate opens like its family. *)
Lemma extract_opens_like_family response c :
  c ∈ extract response -> opens_like_family (lower_string c) = true.
Proof.
  intros [(p & Hp & Hin)|[Hin|Hin]]%extract_family; unfold opens_like_family.
  - apply module_candidate_shape in Hin as (w & name & args & -> & Hw & _).
    rewrite <- append_assoc, lower_string_append, lower_string_append, Hw.
    assert (lower_string p = p) as ->.
    { apply list_elem_of_In in Hp. simpl in Hp.
      repeat (destruct Hp as [<-|Hp]; [reflexivity|]). done. }
    apply orb_true_iff. left. apply orb_true_iff. left.
    apply existsb_exists. exists p. split; [by apply list_elem_of_In|].
    change (lower_string ".") with ".". apply startswith_append.
  - apply gdal_candidate_shape in Hin as (w & name & args & -> & Hw & _).
    rewrite lower_string_append, Hw.
    apply orb_true_iff. left. apply orb_true_iff. right.
    apply startswith_append.
  - apply linux_candidate_lower in Hin.
    apply orb_true_iff. right. by apply mem_elem_of.
Qed.


Lemma every_word_lower w :
  every Char.is_word (lower_string w) = every Char.is_word w.
Proof. induction w as [|c w IH]; simpl; by rewrite ?lower_is_word, ?IH. Qed.

Lemma every_word_solid s : every Char.is_word s = true -> solid s = true.
Proof.
  induction s as [|c s IH]; simpl; [done|].
  intros [Hc Hs]%andb_prop. by rewrite (word_not_space c Hc), IH.
Qed.

Lemma every_word_no_dot s :
  every Char.is_word s = true -> count_char "." s = 0%nat.
Proof.
  induction s as [|c s IH]; simpl; [done|].
  intros [Hc Hs]%andb_prop. rewrite IH by done.
  destruct (Char.eqb c ".") eqn:Hdot; [|done].
  apply char_eqb_eq in Hdot as ->. done.
Qed.

Lemma count_char_append c s t :
  count_char c (s +:+ t) = (count_char c s + count_char c t)%nat.
Proof.
  induction s as [|d s IH]; [done|].
  rewrite append_cons. simpl. rewrite IH. lia.
Qed.

Lemma solid_append s t : solid (s +:+ t) = solid s && solid t.
Proof.
  induction s as [|c s IH]; [done|].
  rewrite append_cons. simpl. by rewrite IH, andb_assoc.
Qed.

(** The prefix of a module pattern, in whatever letter case, is made of
    word characters. *)
Lemma prefix_spelling_word p w :
  p ∈ module_prefixes -> lower_string w = lower_string p ->
  w ≠ "" /\ every Char.is_word w = true.
Proof.
  intros Hp Hw. split.
  - intros ->. apply list_elem_of_In in Hp. simpl in Hp.
    repeat (destruct Hp as [<-|Hp]; [discriminate|]). done.
  - rewrite <- every_word_lower, Hw.
    apply list_elem_of_In in Hp. simpl in Hp.
    repeat (destruct Hp as [<-|Hp]; [reflexivity|]). done.
Qed.

(** Splitting a text that opens with a word. *)
Lemma split_go_solid word : forall tok after,
  solid word = true ->
  Str.split_go tok (word +:+ after) = Str.split_go (tok +:+ word) after.
Proof.
  induction word as [|c word IH]; intros tok after Hsolid.
  - by rewrite append_empty_l, append_empty_r.
  - simpl in Hsolid. apply andb_prop in Hsolid as [Hc Hword].
    apply negb_true_iff in Hc. rewrite append_cons. simpl. rewrite Hc.
    rewrite IH by done. unfold Str.snoc. by rewrite append_assoc.
Qed.

Lemma split_word_then word after :
  word ≠ "" -> solid word = true -> argument_text after ->
  Str.split (word +:+ after) = word :: Str.split after.
Proof.
  intros Hne Hsolid Hafter. unfold Str.split.
  rewrite split_go_solid, append_empty_l by done.
  destruct Hafter as [->|(a & w' & d & -> & Ha & _)].
  - by destruct word.
  - simpl. rewrite Ha. by destruct word.
Qed.

(** The first word of a module candidate: the prefix, a dot and a name of
    word characters. *)
Lemma module_candidate_split p text c :
  p ∈ module_prefixes ->
  c ∈ findall (module_pattern p) text ->
  exists w name args,
    Str.split c = (w +:+ "." +:+ name) :: Str.split args
    /\ c = (w +:+ "." +:+ name) +:+ args
    /\ w ≠ "" /\ every Char.is_word w = true
    /\ name ≠ "" /\ every Char.is_word name = true
    /\ argument_text args.
Proof.
  intros Hp Hin.
  apply module_candidate_shape in Hin
    as (w & name & args & -> & Hw & Hname & Hword & Hargs).
  destruct (prefix_spelling_word p w Hp Hw) as [Hne Hwword].
  exists w, name, args.
  assert (w +:+ "." +:+ name +:+ args = (w +:+ "." +:+ name) +:+ args) as ->
    by (by rewrite !append_assoc).
  split; [|done].
  apply split_word_then; [by destruct w| |done].
  rewrite !solid_append, (every_word_solid w), (every_word_solid name) by done.
  reflexivity.
Qed.

(** Candidates of the other two families fail the prefix test. *)
Lemma opens_like_gdal_not_grass c :
  Str.startswith (lower_string c) "gdal" = true -> is_grass_command c = false.
Proof.
  intros Hgdal. destruct (is_grass_command c) eqn:Hgrass; [|done].
  apply is_grass_command_iff in Hgrass as (q & Hq & rest & ->).
  rewrite lower_string_append in Hgdal.
  apply list_elem_of_In in Hq. simpl in Hq.
  repeat (destruct Hq as [<-|Hq]; [by vm_compute in Hgdal|]). done.
Qed.

Lemma tool_name_not_grass c :
  lower_string c ∈ linux_tools -> is_grass_command c = false.
Proof.
  intros Htool. destruct (is_grass_command c) eqn:Hgrass; [|done].
  apply is_grass_command_iff in Hgrass as (q & Hq & rest & ->).
  rewrite lower_string_append in Htool. apply mem_elem_of in Htool.
  apply list_elem_of_In in Hq. simpl in Hq.
  repeat (destruct Hq as [<-|Hq]; [by vm_compute in Htool|]). done.
Qed.

Lemma calls_in_round i cmd calls o :
  forallb is_call calls = true ->
  calls_in (MsgNumbered i cmd :: calls ++ report cmd o) = calls.
Proof.
  intros Hcalls. unfold calls_in. simpl. rewrite List.filter_app.
  assert (List.filter is_call (report cmd o) = []) as -> by (by destruct o).
  rewrite app_nil_r. induction calls as [|ev calls IH]; [done|].
  simpl in *. apply andb_prop in Hcalls as [-> Hcalls]. by rewrite IH.
Qed.




(** X2: no candidate starts with [d.], [ps.] or [r3.]: three of the ten
    prefixes the dispatch tests for can never be met by what extraction
    produces, so display, PostScript and 3D raster modules are never
    run. *)
Theorem display_ps_raster3d_never_extracted (response c : string) :
  c ∈ extract response ->
  ¬ starts_with c "d." /\ ¬ starts_with c "ps." /\ ¬ starts_with c "r3.".
Proof.
  intros Hin. apply extract_opens_like_family in Hin.
  repeat split; intros [rest ->]; rewrite lower_string_append in Hin;
    by vm_compute in Hin.
Qed.

Lemma display_ps_raster3d_never_extracted_witness :
  ¬ starts_with "db.connect d.mon" "d."
  /\ ¬ starts_with "db.connect d.mon" "ps."
  /\ ¬ starts_with "db.connect d.mon" "r3.".
Proof.
  apply (display_ps_raster3d_never_extracted "Use db.connect d.mon").
  vm_compute. by left.
Defined.

Section MoreDispatchProperties.

Context {World : Type} `{Host World}.

(** The round of a module candidate: the host is called with the first
    word. *)
Lemma dispatch_one_grass i cmd (w : World) :
  is_grass_command cmd = true ->
  exists module args w' o,
    Str.split cmd = module :: args
    /\ dispatch_one (i, cmd) w
       = (w', MsgNumbered i cmd
               :: [CallReadCommand module (params_of args)] ++ report cmd o,
          inr tt).
Proof.
  intros Hgrass. unfold dispatch_one, bind, try_except, emit.
  destruct (try_body_grass cmd w Hgrass) as (module & args & Hsplit & ->).
  exists module, args.
  destruct (gs_read_command module (params_of args) w) as [w' [e|out]].
  - by exists w', (Errored (str_of e)).
  - by exists w', (Succeeded (shorten out)).
Qed.

Lemma serves_announced cmds : forall i log,
  serves i cmds log ->
  announced log = cmds
  /\ (length (calls_in log) <= length cmds)%nat.
Proof.
  induction cmds as [|cmd cmds IH]; intros i log Hserves;
    inversion Hserves as [|? ? ? calls o log' Hdone Hrest]; subst; [done|].
  destruct (IH _ _ Hrest) as [Hann Hlen].
  assert (announced (calls ++ report cmd o ++ log') = announced log'
          /\ (length (calls_in (calls ++ report cmd o ++ log'))
              <= 1 + length (calls_in log'))%nat) as [Heq Hle].
  { assert (announced (report cmd o ++ log') = announced log'
            /\ calls_in (report cmd o ++ log') = calls_in log') as [Hr Hc]
      by (by destruct o).
    unfold attempted in Hdone.
    destruct (is_grass_command cmd);
      [destruct Hdone as [(module & params & ->) _]
      |destruct (is_system_command cmd); destruct Hdone as [-> _]];
      unfold calls_in in *; simpl; rewrite ?Hr, ?Hc; split; try done; lia. }
  simpl. rewrite Heq, Hann. split; [done|].
  unfold calls_in in *. simpl in *. lia.
Qed.

End MoreDispatchProperties.

(** X3: the module name that reaches the host for an extracted candidate
    has exactly one dot: a module pattern stops the name at the second
    dot, so a module such as [r.in.gdal] is called as [r.in]. *)
Theorem module_name_has_one_dot {World : Type} `{Host World}
  (response c : string) (i : nat) (w : World) :
  c ∈ extract response ->
  is_grass_command c = true ->
  exists w' log module params,
    dispatch_one (i, c) w = (w', log, inr tt)
    /\ calls_in log = [CallReadCommand module params]
    /\ count_char "." module = 1%nat.
Proof.
  intros Hin Hgrass.
  destruct (dispatch_one_grass i c w Hgrass)
    as (module & args & w' & o & Hsplit & Heq).
  exists w'. eexists. exists module, (params_of args).
  split; [exact Heq|]. split; [by apply calls_in_round|].
  apply extract_family in Hin as [(p & Hp & Hin)|[Hin|Hin]].
  - apply module_candidate_split in Hin
      as (wp & name & rest & Hsplit' & _ & _ & Hwp & _ & Hname & _); [|done].
    rewrite Hsplit in Hsplit'. injection Hsplit' as -> _.
    rewrite !count_char_append, (every_word_no_dot wp),
      (every_word_no_dot name) by done. reflexivity.
  - apply gdal_candidate_shape in Hin as (wg & name & args' & -> & Hw & _).
    assert (is_grass_command (wg +:+ name +:+ args') = false) as Hno.
    { apply opens_like_gdal_not_grass.
      rewrite lower_string_append, Hw. apply startswith_append. }
    congruence.
  - apply linux_candidate_lower, tool_name_not_grass in Hin. congruence.
Qed.

Lemma module_name_has_one_dot_witness :
  exists w' log module params,
    dispatch_one (1, "r.in") 0 = (w', log, inr tt)
    /\ calls_in log = [CallReadCommand module params]
    /\ count_char "." module = 1%nat.
Proof.
  apply (module_name_has_one_dot "Import it: r.in.gdal input=dem.tif" "r.in" 1 0).
  - vm_compute. by left.
  - reflexivity.
Defined.

(** ** The ends of a candidate *)

Lemma head_then_arguments head args f h :
  head = String f h ->
  Char.is_word f = true ->
  (exists d, last_char head = Some d /\ Char.is_space d = false) ->
  argument_text args ->
  (exists f' rest, head +:+ args = String f' rest /\ Char.is_word f' = true)
  /\ (exists d, last_char (head +:+ args) = Some d /\ Char.is_space d = false)
  /\ (exists word words, Str.split (head +:+ args) = word :: words).
Proof.
  intros -> Hf Hlast Hargs. split; [|split].
  - exists f, (h +:+ args). by rewrite append_cons.
  - destruct Hargs as [->|(a & w' & d & -> & _ & Hd & Hsolid)].
    + by rewrite append_empty_r.
    + exists d. by rewrite last_char_append.
  - rewrite append_cons. apply split_first. by apply word_not_space.
Qed.

Lemma word_text_ends s :
  s ≠ "" -> every Char.is_word s = true ->
  (exists f h, s = String f h /\ Char.is_word f = true)
  /\ (exists d, last_char s = Some d /\ Char.is_space d = false).
Proof.
  intros Hne Hall. destruct s as [|f h]; [done|]. split.
  - exists f, h. simpl in Hall. by apply andb_prop in Hall as [-> _].
  - destruct (every_last _ _ _ Hall) as (d & Hd & Hword).
    exists d. split; [done|]. by apply word_not_space.
Qed.

(** X4: a candidate is never empty and carries no whitespace at either
    end: it starts with a word character and ends with a character that is
    not whitespace.  So splitting it always gives a first word: the module
    name, or the program of the subprocess, is never missing. *)
Theorem candidate_has_first_word (response c : string) :
  c ∈ extract response ->
  (exists f rest, c = String f rest /\ Char.is_word f = true)
  /\ (exists d, last_char c = Some d /\ Char.is_space d = false)
  /\ (exists word words, Str.split c = word :: words).
Proof.
  intros [(p & Hp & Hin)|[Hin|Hin]]%extract_family.
  - apply module_candidate_split in Hin
      as (w & name & args & _ & -> & Hw & Hwword & Hname & Hnword & Hargs);
      [|done].
    destruct (word_text_ends w Hw Hwword) as [(f & h & -> & Hf) _].
    destruct (word_text_ends name Hname Hnword) as [_ (d & Hd & Hsolid)].
    eapply head_then_arguments; [by rewrite append_cons|done| |done].
    exists d. by rewrite <- append_assoc, last_char_append.
  - apply gdal_candidate_shape in Hin
      as (w & name & args & -> & Hw & Hname & Hnword & Hargs).
    assert (w ≠ "" /\ every Char.is_word w = true) as [Hne Hwword].
    { split; [by intros ->|]. by rewrite <- every_word_lower, Hw. }
    destruct (word_text_ends w Hne Hwword) as [(f & h & -> & Hf) _].
    destruct (word_text_ends name Hname Hnword) as [_ (d & Hd & Hsolid)].
    rewrite <- append_assoc.
    eapply head_then_arguments; [by rewrite append_cons|done| |done].
    exists d. by rewrite last_char_append.
  - apply linux_candidate_lower in Hin.
    assert (c ≠ "" /\ every Char.is_word c = true) as [Hne Hword].
    { split.
      - intros ->. apply list_elem_of_In in Hin. simpl in Hin.
        repeat (destruct Hin as [Hin|Hin]; [discriminate|]). done.
      - rewrite <- every_word_lower.
        apply list_elem_of_In in Hin. simpl in Hin.
        repeat (destruct Hin as [<-|Hin]; [reflexivity|]). done. }
    destruct (word_text_ends c Hne Hword) as [(f & h & -> & Hf) Hlast].
    rewrite <- (append_empty_r (String f h)).
    eapply head_then_arguments; [done|done|done|by left].
Qed.

Lemma candidate_has_first_word_witness :
  (exists f rest, "v.info map=roads" = String f rest /\ Char.is_word f = true)
  /\ (exists d, last_char "v.info map=roads" = Some d
                /\ Char.is_space d = false)
  /\ (exists word words, Str.split "v.info map=roads" = word :: words).
Proof.
  apply (candidate_has_first_word "Then  v.info map=roads  ").
  vm_compute. by left.
Defined.

(** ** Size of what is printed *)

Lemma take_length n : forall s,
  String.length (Str.take n s) = Nat.min n (String.length s).
Proof.
  induction n as [|n IH]; intros [|c s]; simpl; try done. by rewrite IH.
Qed.

(** X5: the output printed for a candidate is never longer than 503
    characters, and it always begins with the first 500 characters of the
    whole output (or with all of it, when it is shorter). *)
Theorem shorten_bounded (out : string) :
  (String.length (shorten out) <= 503)%nat
  /\ starts_with (shorten out) (Str.take 500 out).
Proof.
  unfold shorten. destruct (Nat.ltb_spec 500 (String.length out)).
  - split; [|by exists "..."].
    rewrite length_append, take_length.
    change (String.length "...") with 3%nat. lia.
  - split; [lia|]. exists "". by rewrite append_empty_r, take_all.
Qed.

(** ** The method as a whole *)

Lemma announced_app l1 l2 :
  announced (l1 ++ l2) = announced l1 ++ announced l2.
Proof.
  induction l1 as [|ev l1 IH]; [done|]. destruct ev; simpl; by rewrite ?IH.
Qed.

(** A log that is empty or opens with an announcement closes the round
    before it. *)
Lemma round_of_app l1 l2 :
  (l2 = [] \/ exists i cmd l, l2 = MsgNumbered i cmd :: l) ->
  round_of (l1 ++ l2) = round_of l1.
Proof.
  intros Hopen. induction l1 as [|ev l1 IH].
  - by destruct Hopen as [->|(i & cmd & l & ->)].
  - destruct ev; simpl; by rewrite ?IH.
Qed.

Lemma rounds_app l1 l2 :
  (l2 = [] \/ exists i cmd l, l2 = MsgNumbered i cmd :: l) ->
  rounds (l1 ++ l2) = rounds l1 ++ rounds l2.
Proof.
  intros Hopen. induction l1 as [|ev l1 IH]; [done|].
  destruct ev; simpl; rewrite ?IH; try done. by rewrite round_of_app.
Qed.

Lemma serves_opens i cmds log :
  serves i cmds log ->
  log = [] \/ exists i' cmd l, log = MsgNumbered i' cmd :: l.
Proof. intros [|]; [by left|right; by eexists _, _, _]. Qed.

(** What is done for one candidate holds no announcement and at most one
    call. *)
Lemma attempted_round cmd calls o :
  attempted cmd calls o ->
  round_of (calls ++ report cmd o) = calls ++ report cmd o
  /\ rounds (calls ++ report cmd o) = []
  /\ announced (calls ++ report cmd o) = []
  /\ (length (calls_in (calls ++ report cmd o)) <= 1)%nat.
Proof.
  unfold attempted. intros Hdone.
  destruct (is_grass_command cmd);
    [destruct Hdone as [(module & params & ->) _]
    |destruct (is_system_command cmd); destruct Hdone as [-> _]];
    destruct o; simpl; repeat split; lia.
Qed.

Lemma serves_rounds cmds : forall i log,
  serves i cmds log ->
  map fst (rounds log) = cmds
  /\ Forall (fun round => (length (calls_in round.2) <= 1)%nat) (rounds log).
Proof.
  induction cmds as [|cmd cmds IH]; intros i log Hserves;
    inversion Hserves as [|? ? ? calls o log' Hdone Hrest]; subst; [done|].
  destruct (IH _ _ Hrest) as [Hfst Hall].
  destruct (attempted_round cmd calls o Hdone) as (Hround & Hrounds & _ & Hone).
  pose proof (serves_opens _ _ _ Hrest) as Hopen.
  simpl. rewrite app_assoc, round_of_app, rounds_app, Hround, Hrounds by done.
  simpl. rewrite Hfst. split; [done|]. by apply Forall_cons.
Qed.

(** X6: whatever the surroundings do, the method never raises an
    [Exception].  Either it returns normally, and then it returns all the
    candidates it extracted, those that failed or were unknown included,
    each announced once and in order; or a call raised what is no
    [Exception] ([SystemExit] or [KeyboardInterrupt]), the method raises
    it in turn, and the candidates announced are the first of those
    extracted.  In both cases no candidate is announced twice, and for
    every announced candidate at most one call is made.  When nothing is
    extracted nothing is printed or called and the empty list is
    returned. *)
Theorem method_returns_or_exits {World : Type}
  {surroundings : Surroundings World} (response : string) (w : World) :
  exists w' log r,
    extract_and_execute_commands response w = (w', log, r)
    /\ match r with
       | inr commands =>
           commands = extract response /\ announced log = extract response
       | inl b =>
           is_exception b = false
           /\ exists later, extract response = announced log ++ later
       end
    /\ NoDup (announced log)
    /\ map fst (rounds log) = announced log
    /\ Forall (fun round => (length (calls_in round.2) <= 1)%nat) (rounds log)
    /\ (extract response = [] -> w' = w /\ log = [] /\ r = inr []).
Proof.
  unfold extract_and_execute_commands.
  assert (NoDup (extract response)) as Hnodup.
  { rewrite extract_spec. apply first_occurrences_from_NoDup. }
  destruct (extract response) as [|cmd cmds] eqn:Hextract.
  { exists w, [], (inr []). by repeat split. }
  destruct (dispatch_from_until (cmd :: cmds) 1 w)
    as (w' & log & r & Hloop & Hr).
  exists w'. unfold bind, emit, ret, dispatch. rewrite Hloop.
  destruct r as [b|[]]; simpl.
  - destruct Hr as
      [Hb (served & c & later & log1 & call & w0 & Hcmds & Hs & -> & Hraise)].
    destruct (serves_rounds _ _ _ Hs) as [Hfst Hall].
    apply serves_announced in Hs as [Hann _].
    assert (NoDup (served ++ [c])) as Hfirst.
    { rewrite Hcmds in Hnodup. apply (sublist_NoDup _ _ Hnodup).
      apply sublist_app; [done|]. apply sublist_skip, sublist_nil_l. }
    eexists _, _. split; [reflexivity|]. simpl.
    rewrite announced_app, Hann, rounds_app by (right; by eexists _, _, _).
    destruct call; simpl in Hraise; try done; simpl;
      (split; [split; [done|]; exists later; by rewrite <- app_assoc|]);
      (split; [done|]); rewrite map_app, Hfst; (split; [done|]);
      (split; [|done]); apply Forall_app; (split; [done|]);
      apply Forall_singleton; simpl; lia.
  - destruct (serves_rounds _ _ _ Hr) as [Hfst Hall].
    apply serves_announced in Hr as [Hann _].
    eexists _, _. split; [reflexivity|]. rewrite app_nil_r. simpl.
    rewrite Hann, Hfst. by repeat split.
Qed.

(** ** Filing the modules under their categories *)

(** Computes the prefix tests of a text whose first characters are
    known. *)
Ltac settle_prefix_tests :=
  repeat match goal with
         | |- context [Str.startswith (?q +:+ ?rest) ?p] =>
             let b := eval vm_compute in (Str.startswith (q +:+ rest) p) in
             change (Str.startswith (q +:+ rest) p) with b
         end;
  cbv iota.

Ltac try_prefix q :=
  let Hq := fresh "Hq" in
  let rest := fresh "rest" in
  destruct (Str.startswith _ q) eqn:Hq;
  [apply startswith_iff in Hq as [rest ->]; settle_prefix_tests;
   unfold append_under;
   first [by rewrite lookup_alter_eq | by rewrite lookup_alter_ne]
  |].

(** One round changes a category exactly when the module has its
    prefix. *)
Lemma categorize_one_lookup modules module key prefix :
  (key, prefix) ∈ categories ->
  categorize_one modules module !! key
  = if Str.startswith module prefix
    then (fun l => l ++ [module]) <$> modules !! key
    else modules !! key.
Proof.
  intros Hin. apply list_elem_of_In in Hin. simpl in Hin.
  unfold categorize_one.
  repeat (destruct Hin as [[= <- <-]|Hin];
    [try_prefix "i."; try_prefix "g."; try_prefix "r."; try_prefix "r3.";
     try_prefix "v."; try_prefix "db."; try_prefix "t."; try_prefix "m.";
     try_prefix "d."; try_prefix "ps."; done|]).
  done.
Qed.

Lemma categorize_loop_lookup key prefix :
  (key, prefix) ∈ categories ->
  forall l modules acc,
    modules !! key = Some acc ->
    fold_left categorize_one l modules !! key
    = Some (acc ++ List.filter (fun m => Str.startswith m prefix) l).
Proof.
  intros Hin. induction l as [|m l IH]; intros modules acc Hacc; simpl.
  - by rewrite app_nil_r.
  - destruct (Str.startswith m prefix) eqn:Hm.
    + rewrite (IH _ (acc ++ [m])); [by rewrite <- app_assoc|].
      by rewrite (categorize_one_lookup _ _ _ _ Hin), Hm, Hacc.
    + apply IH. by rewrite (categorize_one_lookup _ _ _ _ Hin), Hm.
Qed.

Lemma empty_modules_lookup key prefix :
  (key, prefix) ∈ categories -> empty_modules !! key = Some [].
Proof.
  intros Hin. apply list_elem_of_In in Hin. simpl in Hin.
  repeat (destruct Hin as [[= <- <-]|Hin]; [by vm_compute|]). done.
Qed.

Lemma categorize_lookup l key prefix :
  (key, prefix) ∈ categories ->
  categorize l !! key
  = Some (List.filter (fun m => Str.startswith m prefix) l).
Proof.
  intros Hin. unfold categorize.
  rewrite (categorize_loop_lookup key prefix Hin l empty_modules []); [done|].
  by eapply empty_modules_lookup.
Qed.

(** The loop never adds or removes a category. *)
Lemma categorize_one_dom modules module :
  dom (categorize_one modules module) = dom modules.
Proof.
  unfold categorize_one, append_under.
  repeat (destruct (Str.startswith module _);
          [apply set_eq; intros k; rewrite !elem_of_dom, lookup_alter;
           case_decide; subst; by rewrite ?fmap_is_Some|]).
  done.
Qed.

Lemma categorize_dom l : dom (categorize l) = dom empty_modules.
Proof.
  unfold categorize. generalize empty_modules.
  induction l as [|m l IH]; intros modules; simpl; [done|].
  by rewrite IH, categorize_one_dom.
Qed.

Lemma category_of_key l key ms :
  categorize l !! key = Some ms -> exists prefix, (key, prefix) ∈ categories.
Proof.
  intros Hsome.
  assert (key ∈ dom (categorize l)) as Hdom by (apply elem_of_dom; eauto).
  rewrite categorize_dom in Hdom. apply elem_of_dom in Hdom as [v Hv].
  assert (forall k p, (k, p) ∈ categories -> key ≠ k
                      \/ exists prefix, (key, prefix) ∈ categories) as Hcase.
  { intros k p Hin. destruct (decide (key = k)) as [->|?]; eauto. }
  destruct (Hcase "imagery" "i.") as [?|?];
    [apply list_elem_of_In; simpl; tauto| |done].
  destruct (Hcase "general" "g.") as [?|?];
    [apply list_elem_of_In; simpl; tauto| |done].
  destruct (Hcase "raster" "r.") as [?|?];
    [apply list_elem_of_In; simpl; tauto| |done].
  destruct (Hcase "raster3d" "r3.") as [?|?];
    [apply list_elem_of_In; simpl; tauto| |done].
  destruct (Hcase "vector" "v.") as [?|?];
    [apply list_elem_of_In; simpl; tauto| |done].
  destruct (Hcase "database" "db.") as [?|?];
    [apply list_elem_of_In; simpl; tauto| |done].
  destruct (Hcase "temporal" "t.") as [?|?];
    [apply list_elem_of_In; simpl; tauto| |done].
  destruct (Hcase "misc" "m.") as [?|?];
    [apply list_elem_of_In; simpl; tauto| |done].
  destruct (Hcase "display" "d.") as [?|?];
    [apply list_elem_of_In; simpl; tauto| |done].
  destruct (Hcase "ps" "ps.") as [?|?];
    [apply list_elem_of_In; simpl; tauto| |done].
  exfalso. unfold empty_modules in Hv.
  rewrite ?lookup_insert_ne in Hv by done.
  by rewrite ?lookup_singleton_ne, ?lookup_empty in Hv.
Qed.

(** X7: the loop of [get_grass_modules] files the modules by prefix: for
    any list of modules, each category holds exactly the modules that
    start with its prefix, in the order of the list; the ten prefixes
    exclude one another, so no module is filed twice and the order of the
    [elif] chain does not matter. *)
Theorem categorize_by_prefix (l : list string) (key prefix : string) :
  (key, prefix) ∈ categories ->
  categorize l !! key
  = Some (List.filter (fun m => Str.startswith m prefix) l)
  /\ forall key' prefix' m,
       (key', prefix') ∈ categories -> key' ≠ key ->
       Str.startswith m prefix = true ->
       Str.startswith m prefix' = false.
Proof.
  intros Hin. split; [by apply categorize_lookup|].
  intros key' prefix' m Hin' Hne [rest ->]%startswith_iff.
  apply list_elem_of_In in Hin, Hin'. simpl in Hin, Hin'.
  repeat (destruct Hin as [[= <- <-]|Hin];
    [repeat (destruct Hin' as [[= <- <-]|Hin']; [done || reflexivity|]);
     done|]).
  done.
Qed.

Lemma categorize_by_prefix_witness :
  categorize ["r.info"; "d.mon"; "r3.info"; "gdalinfo"; "r.stats"] !! "raster"
  = Some (List.filter (fun m => Str.startswith m "r.")
            ["r.info"; "d.mon"; "r3.info"; "gdalinfo"; "r.stats"])
  /\ forall key' prefix' m,
       (key', prefix') ∈ categories -> key' ≠ "raster" ->
       Str.startswith m "r." = true ->
       Str.startswith m prefix' = false.
Proof.
  apply categorize_by_prefix. apply list_elem_of_In. simpl. tauto.
Defined.

(** X8: the categories and the prefix test of the dispatch loop agree: for
    any list of modules, a module is filed under some category exactly
    when it is in the list and the dispatch loop would run it as a GRASS
    command. *)
Theorem filed_iff_grass_command (l : list string) (m : string) :
  (exists key ms, categorize l !! key = Some ms /\ m ∈ ms)
  <-> (m ∈ l /\ is_grass_command m = true).
Proof.
  split.
  - intros (key & ms & Hsome & Hin).
    destruct (category_of_key _ _ _ Hsome) as [prefix Hcat].
    rewrite (categorize_lookup l key prefix Hcat) in Hsome.
    injection Hsome as <-.
    apply list_elem_of_In, filter_In in Hin as [Hin Hstart].
    split; [by apply list_elem_of_In|].
    unfold is_grass_command, Str.startswith_any.
    apply existsb_exists. exists prefix. split; [|done].
    apply list_elem_of_In in Hcat. simpl in Hcat. simpl.
    repeat (destruct Hcat as [[= <- <-]|Hcat]; [tauto|]). done.
  - intros [Hin Hgrass].
    unfold is_grass_command, Str.startswith_any in Hgrass.
    apply existsb_exists in Hgrass as (prefix & Hprefix & Hstart).
    assert (exists key, (key, prefix) ∈ categories) as [key Hcat].
    { simpl in Hprefix.
      repeat (destruct Hprefix as [<-|Hprefix];
              [eexists; apply list_elem_of_In; simpl; tauto|]). done. }
    exists key. eexists. split; [by apply categorize_lookup|].
    apply list_elem_of_In, filter_In. split; [by apply list_elem_of_In|done].
Qed.

(** ** The cache of [get_grass_modules] *)

Section ModuleCache.

Context {World Num : Type} `{Host World} `{Platform World Num}.

Lemma categorize_not_empty l : categorize l ≠ ∅.
Proof.
  intros Hempty.
  assert (categorize l !! "imagery" = None) as Hnone
    by (by rewrite Hempty, lookup_empty).
  rewrite (categorize_lookup l "imagery" "i.") in Hnone; [done|].
  apply list_elem_of_In. simpl. tauto.
Qed.

Lemma empty_modules_not_empty : empty_modules ≠ ∅.
Proof. apply (categorize_not_empty []). Qed.

Lemma get_grass_modules_cached (self : Addon Num) (s : World * unit) :
  module_cache self ≠ ∅ ->
  get_grass_modules self s = (s, [], inr (self, module_cache self)).
Proof.
  intros Hfull. unfold get_grass_modules.
  by destruct (decide (module_cache self = ∅)).
Qed.

Lemma get_grass_modules_fresh (self : Addon Num) (w : World) :
  module_cache self = ∅ ->
  get_grass_modules self (w, tt)
  = match gs_read_command "g.version" {["flags" := "g"]} w with
    | (w1, inr _) =>
        ((w1, tt), [AskReadCommand "g.version" {["flags" := "g"]}],
         inr (Instance_ (session_context self) (categorize all_modules)
                (system_info self), categorize all_modules))
    | (w1, inl e) =>
        ((w1, tt), [AskReadCommand "g.version" {["flags" := "g"]};
                    WarnModules (str_of e)],
         inr (Instance_ (session_context self) empty_modules
                (system_info self), empty_modules))
    end.
Proof.
  intros Hfresh. unfold get_grass_modules.
  destruct (decide (module_cache self = ∅)) as [_|?]; [|done].
  unfold Sc.bind, Sc.try_except, Sc.ret, Sc.emit, ask. simpl.
  by destruct (gs_read_command "g.version" {["flags" := "g"]} w)
    as [w1 [e|out]].
Qed.

End ModuleCache.

(** X9: [get_grass_modules] never raises, stores what it returns in the
    instance, and from then on answers from the instance: a later call,
    in whatever state of the world, asks nothing, prints nothing, changes
    nothing and returns the same dictionary. *)
Theorem grass_modules_asked_once {World Num : Type}
  `{Host World} `{Platform World Num} (self : Addon Num) (w : World) :
  exists w1 log self1 modules,
    get_grass_modules self (w, tt) = ((w1, tt), log, inr (self1, modules))
    /\ module_cache self1 = modules
    /\ (length log <= 2)%nat
    /\ forall s, get_grass_modules self1 s = (s, [], inr (self1, modules)).
Proof.
  destruct (decide (module_cache self = ∅)) as [Hfresh|Hfull].
  - rewrite (get_grass_modules_fresh self w Hfresh).
    destruct (gs_read_command "g.version" {["flags" := "g"]} w)
      as [w1 [e|out]].
    + do 4 eexists. split; [done|]. split; [done|]. split; [simpl; lia|].
      intros s. apply (get_grass_modules_cached (Instance_ _ _ _)).
      apply empty_modules_not_empty.
    + do 4 eexists. split; [done|]. split; [done|]. split; [simpl; lia|].
      intros s. apply (get_grass_modules_cached (Instance_ _ _ _)).
      apply categorize_not_empty.
  - exists w, [], self, (module_cache self).
    rewrite (get_grass_modules_cached self (w, tt) Hfull).
    split; [done|]. split; [done|]. split; [simpl; lia|].
    intros s. by apply get_grass_modules_cached.
Qed.

(** X10: when [g.version] fails on the first call, [get_grass_modules]
    warns once, returns ten empty categories and keeps them: every later
    call returns the empty categories without asking the host again. *)
Theorem failed_enumeration_is_kept {World Num : Type}
  `{Host World} `{Platform World Num}
  (self : Addon Num) (w w1 : World) (e : exception) :
  module_cache self = ∅ ->
  gs_read_command "g.version" {["flags" := "g"]} w = (w1, inl e) ->
  exists self1,
    get_grass_modules self (w, tt)
    = ((w1, tt),
       [AskReadCommand "g.version" {["flags" := "g"]}; WarnModules (str_of e)],
       inr (self1, empty_modules))
    /\ (forall key prefix, (key, prefix) ∈ categories ->
          empty_modules !! key = Some [])
    /\ forall s,
         get_grass_modules self1 s = (s, [], inr (self1, empty_modules)).
Proof.
  intros Hfresh Hfail. rewrite (get_grass_modules_fresh self w Hfresh), Hfail.
  eexists. split; [done|]. split; [apply empty_modules_lookup|].
  intros s. apply (get_grass_modules_cached (Instance_ _ _ _)).
  apply empty_modules_not_empty.
Qed.

Lemma failed_enumeration_is_kept_witness :
  exists self1 : Addon Z,
    get_grass_modules new_addon (0%nat, tt)
    = ((1%nat, tt),
       [AskReadCommand "g.version" {["flags" := "g"]};
        WarnModules "Module run failed"],
       inr (self1, empty_modules))
    /\ (forall key prefix, (key, prefix) ∈ categories ->
          empty_modules !! key = Some [])
    /\ forall s,
         get_grass_modules self1 s = (s, [], inr (self1, empty_modules)).
Proof.
  apply (failed_enumeration_is_kept new_addon 0%nat 1%nat
           (CalledModuleError "Module run failed")); reflexivity.
Defined.

(** ** Reasoning about the probing computations *)

Section Post.

Context {St Ev Err : Type}.
Implicit Types s : St.

Lemma post_ret {A} (a : A) s (Q : St -> A -> Prop) (E : St -> Err -> Prop) :
  Q s a -> post (Ev := Ev) (Sc.ret a) s Q E.
Proof. done. Qed.

Lemma post_bind {A B} (m : Sc.M (Ev := Ev) A) (f : A -> Sc.M B) s
  (Q' : St -> A -> Prop) (Q : St -> B -> Prop) (E : St -> Err -> Prop) :
  post m s Q' E ->
  (forall s' a, Q' s' a -> post (f a) s' Q E) ->
  post (Sc.bind m f) s Q E.
Proof.
  unfold post, Sc.bind. intros Hm Hf.
  destruct (m s) as [[s1 l1] [e|a]]; [done|].
  specialize (Hf s1 a Hm). by destruct (f a s1) as [[s2 l2] [e|b]].
Qed.

(** A [try] whose handler takes everything and does nothing. *)
Lemma post_try_pass (m : Sc.M (Ev := Ev) unit) s
  (Q : St -> Prop) (E : St -> Err -> Prop) :
  post m s (fun s' _ => Q s') (fun s' _ => Q s') ->
  post (Sc.try_except (fun _ => true) m (fun _ => Sc.ret tt)) s
    (fun s' _ => Q s') E.
Proof.
  unfold post, Sc.try_except, Sc.ret. intros Hm.
  by destruct (m s) as [[s1 l1] [e|a]].
Qed.

Lemma post_modify (f : St -> St) s (Q : St -> unit -> Prop)
  (E : St -> Err -> Prop) :
  Q (f s) tt -> post (Ev := Ev) (Sc.modify f) s Q E.
Proof. done. Qed.

Lemma post_collect {A} (keep : A -> Sc.M (Ev := Ev) (Err := Err) bool)
  (I : St -> Prop) :
  (forall x s, I s -> post (keep x) s (fun s' _ => I s') (fun s' _ => I s')) ->
  forall l acc s,
    I s ->
    post (Sc.collect l keep acc) s
      (fun s' r => I s' /\ exists kept, r = acc ++ kept /\ kept `sublist_of` l)
      (fun s' _ => I s').
Proof.
  intros Hkeep. induction l as [|x l IH]; intros acc s Hs; simpl.
  - apply post_ret. split; [done|]. exists []. by rewrite app_nil_r.
  - eapply post_bind; [by apply Hkeep|]. intros s' yes Hs'.
    specialize (IH (if yes then acc ++ [x] else acc) s' Hs').
    unfold post in *.
    destruct (Sc.collect l keep _ s') as [[s2 l2] [e|r]]; [done|].
    destruct IH as [Hs2 (kept & -> & Hsub)]. split; [done|].
    destruct yes.
    + exists (x :: kept). split; [by rewrite <- app_assoc|].
      by apply sublist_skip.
    + exists kept. split; [done|]. by apply sublist_cons.
Qed.

End Post.

(** ** What [get_system_info] keeps *)

Section SystemInfoProperties.

Context {World Num : Type} `{Platform World Num}.

Lemma post_ask {L A} (I : L -> Prop) what
  (call : World -> World * (exception + A)) (s : World * L) :
  I (snd s) -> keeps I (ask what call) s.
Proof.
  unfold keeps, post, ask. intros Hs. by destruct (call (fst s)) as [w' [e|a]].
Qed.

Lemma post_which {L} (I : L -> Prop) tool (s : World * L) :
  I (snd s) -> keeps I (which tool) s.
Proof.
  intros Hs. unfold keeps, which.
  eapply post_bind; [by apply (post_ask I)|]. intros s' path Hs'.
  simpl in Hs'.
  by apply post_ret.
Qed.

Lemma post_importable {L} (I : L -> Prop) pkg (s : World * L) :
  I (snd s) -> keeps I (importable pkg) s.
Proof.
  unfold keeps, post, importable. intros Hs.
  by destruct (import_package pkg (fst s)) as [w' [| |e]].
Qed.

Lemma post_item (I : SystemInfo Num -> Prop) d key
  (s : World * SystemInfo Num) :
  I (snd s) -> keeps I (item d key) s.
Proof. unfold keeps, post, item. intros Hs. by destruct (d !! key). Qed.

Lemma post_set_info (I : SystemInfo Num -> Prop) f
  (s : World * SystemInfo Num) :
  I (f (snd s)) -> keeps I (set_info f) s.
Proof. done. Qed.

Lemma post_collect_keeps {L} (I : L -> Prop) l
  (keep : string -> Sc.M (St := World * L) (Ev := probe) (Err := exception) bool)
  (s : World * L) :
  (forall x s, I (snd s) -> keeps I (keep x) s) ->
  I (snd s) ->
  post (Sc.collect l keep []) s
    (fun s' r => I (snd s') /\ r `sublist_of` l)
    (fun s' _ => I (snd s')).
Proof.
  intros Hkeep Hs. unfold keeps in Hkeep.
  pose proof (post_collect keep (fun s => I (snd s)) Hkeep l [] s Hs) as Hc.
  unfold post in *.
  destruct (Sc.collect l keep [] s) as [[s' l'] [e|r]]; [done|].
  by destruct Hc as [Hs' (kept & -> & Hsub)].
Qed.

Lemma keeps_bind {L A B} (I : L -> Prop)
  (m : Sc.M (St := World * L) (Ev := probe) (Err := exception) A)
  (f : A -> Sc.M B) (s : World * L) :
  keeps I m s ->
  (forall s' a, I (snd s') -> keeps I (f a) s') ->
  keeps I (Sc.bind m f) s.
Proof.
  intros Hm Hf. unfold keeps in *.
  eapply post_bind; [exact Hm|]. intros s' a. apply Hf.
Qed.

Lemma keeps_try_pass {L} (I : L -> Prop)
  (m : Sc.M (St := World * L) (Ev := probe) (Err := exception) unit)
  (s : World * L) :
  keeps I m s ->
  keeps I (Sc.try_except (fun _ => true) m (fun _ => Sc.ret tt)) s.
Proof.
  unfold keeps, post, Sc.try_except, Sc.ret. intros Hm.
  by destruct (m s) as [[s1 l1] [e|a]].
Qed.

Lemma keeps_collect {L} (I : L -> Prop) l
  (keep : string -> Sc.M (St := World * L) (Ev := probe) (Err := exception) bool)
  (f : list string -> Sc.M (St := World * L) (Ev := probe) (Err := exception) unit)
  (s : World * L) :
  (forall x s, I (snd s) -> keeps I (keep x) s) ->
  (forall r s, r `sublist_of` l -> I (snd s) -> keeps I (f r) s) ->
  I (snd s) ->
  keeps I (Sc.bind (Sc.collect l keep []) f) s.
Proof.
  intros Hkeep Hf Hs. unfold keeps.
  eapply post_bind; [by apply (post_collect_keeps I)|].
  intros s' r [Hs' Hsub]. by apply Hf.
Qed.

(** An invariant of [info] that every assignment of the block
    respects. *)
Section Blocks.

Variable I : SystemInfo Num -> Prop.
Hypothesis I_version : forall v i, I i -> I (with_version (Some v) i).
Hypothesis I_db : forall v i, I i -> I (with_db v i).
Hypothesis I_location : forall v i, I i -> I (with_location v i).
Hypothesis I_mapset : forall v i, I i -> I (with_mapset v i).
Hypothesis I_region : forall v i, I i -> I (with_region (Some v) i).
Hypothesis I_rasters : forall l i, I i -> I (with_rasters (take 20 l) i).
Hypothesis I_vectors : forall l i, I i -> I (with_vectors (take 20 l) i).
Hypothesis I_gdal_tools : forall l i,
  l `sublist_of` common_tools -> I i -> I (with_gdal_tools l i).
Hypothesis I_python_packages : forall l i,
  l `sublist_of` probed_packages -> I i -> I (with_python_packages l i).
Hypothesis I_system_tools : forall l i,
  l `sublist_of` probed_tools -> I i -> I (with_system_tools l i).

Lemma probe_grass_info_keeps (s : World * SystemInfo Num) :
  I (snd s) -> keeps I probe_grass_info s.
Proof.
  intros Hs. unfold probe_grass_info.
  apply keeps_bind; [by apply post_ask|]. intros s1 gisenv H1.
  apply keeps_bind; [by apply post_ask|]. intros s2 version H2.
  apply keeps_bind; [by apply post_item|]. intros s3 v H3.
  apply keeps_bind; [by apply post_set_info, I_version|]. intros s4 ? H4.
  apply keeps_bind; [by apply post_set_info, I_db|]. intros s5 ? H5.
  apply keeps_bind; [by apply post_set_info, I_location|]. intros s6 ? H6.
  by apply post_set_info, I_mapset.
Qed.

Lemma probe_region_keeps (s : World * SystemInfo Num) :
  I (snd s) -> keeps I probe_region s.
Proof.
  intros Hs. unfold probe_region. apply keeps_try_pass.
  apply keeps_bind; [by apply post_ask|]. intros s1 region H1.
  by apply post_set_info, I_region.
Qed.

Lemma probe_maps_keeps (s : World * SystemInfo Num) :
  I (snd s) -> keeps I probe_maps s.
Proof.
  intros Hs. unfold probe_maps. apply keeps_try_pass.
  apply keeps_bind; [by apply post_ask|]. intros s1 rasters H1.
  apply keeps_bind; [by apply post_set_info, I_rasters|]. intros s2 ? H2.
  apply keeps_bind; [by apply post_ask|]. intros s3 vectors H3.
  by apply post_set_info, I_vectors.
Qed.

Lemma probe_programs_keeps (s : World * SystemInfo Num) :
  I (snd s) -> keeps I probe_programs s.
Proof.
  intros Hs. unfold probe_programs, get_gdal_tools.
  apply keeps_collect; [intros; by apply post_which| |done].
  intros tools s1 Htools H1.
  apply keeps_bind; [by apply post_set_info, I_gdal_tools|]. intros s2 ? H2.
  apply keeps_collect; [intros; by apply post_importable| |done].
  intros packages s3 Hpackages H3.
  apply keeps_bind; [by apply post_set_info, I_python_packages|].
  intros s4 ? H4.
  apply keeps_collect; [intros; by apply post_which| |done].
  intros programs s5 Hprograms H5.
  by apply post_set_info, I_system_tools.
Qed.

Lemma probe_system_keeps (s : World * SystemInfo Num) :
  I (snd s) -> keeps I probe_system s.
Proof.
  intros Hs. unfold probe_system.
  apply keeps_bind; [by apply probe_grass_info_keeps|]. intros s1 ? H1.
  apply keeps_bind; [by apply probe_region_keeps|]. intros s2 ? H2.
  apply keeps_bind; [by apply probe_maps_keeps|]. intros s3 ? H3.
  by apply probe_programs_keeps.
Qed.

End Blocks.

End SystemInfoProperties.

Section SystemInfoCache.

Context {World Num : Type} `{Platform World Num}.

Lemma default_info_within_bounds : within_bounds (default_info (Num := Num)).
Proof.
  unfold within_bounds. simpl.
  repeat split; try lia; apply sublist_nil_l.
Qed.

(** The outer [try] statement: it never raises, and what it leaves in
    [info] satisfies every invariant of the block. *)
Lemma guarded_probe (I : SystemInfo Num -> Prop) (s : World * SystemInfo Num) :
  I (snd s) ->
  keeps I probe_system s ->
  exists s' log,
    Sc.try_except (fun _ => true) probe_system
      (fun e => Sc.emit (WarnSystemInfo (str_of e))) s
    = (s', log, inr tt)
    /\ I (snd s').
Proof.
  unfold keeps, post, Sc.try_except, Sc.emit. intros Hs Hkeep.
  destruct (probe_system s) as [[s1 l1] [e|[]]]; by eexists _, _.
Qed.

Lemma get_system_info_cached (self : Addon Num) info (s : World * unit) :
  system_info self = Some info ->
  get_system_info self s = (s, [], inr (self, info)).
Proof. intros Hinfo. unfold get_system_info. by rewrite Hinfo. Qed.

Lemma get_system_info_fresh (I : SystemInfo Num -> Prop)
  (self : Addon Num) (w : World) :
  system_info self = None ->
  I default_info ->
  keeps I probe_system (w, default_info) ->
  exists w' log info,
    get_system_info self (w, tt)
    = ((w', tt), log,
       inr (Instance_ (session_context self) (module_cache self) (Some info),
            info))
    /\ Sc.try_except (fun _ => true) probe_system
         (fun e => Sc.emit (WarnSystemInfo (str_of e))) (w, default_info)
       = ((w', info), log, inr tt)
    /\ I info.
Proof.
  intros Hfresh HI Hkeep. unfold get_system_info. rewrite Hfresh.
  destruct (guarded_probe I (w, default_info) HI Hkeep)
    as ([w' info] & log & Heq & Hinfo).
  exists w', log, info. simpl. by rewrite Heq.
Qed.

End SystemInfoCache.

Lemma common_tools_NoDup : NoDup common_tools.
Proof. apply (bool_decide_unpack _). by vm_compute. Qed.

Lemma probed_tools_NoDup : NoDup probed_tools.
Proof. apply (bool_decide_unpack _). by vm_compute. Qed.

(** X11: [get_system_info] never raises, stores what it returns in the
    instance, and from then on answers from the instance: a later call,
    in whatever state of the world, asks nothing, prints nothing, changes
    nothing and returns the same information, however the first call
    went. *)
Theorem system_info_asked_once {World Num : Type} `{Platform World Num}
  (self : Addon Num) (w : World) :
  exists w1 log self1 info,
    get_system_info self (w, tt) = ((w1, tt), log, inr (self1, info))
    /\ system_info self1 = Some info
    /\ forall s, get_system_info self1 s = (s, [], inr (self1, info)).
Proof.
  destruct (system_info self) as [info|] eqn:Hinfo.
  - exists w, [], self, info.
    rewrite (get_system_info_cached self info (w, tt) Hinfo).
    split; [done|]. split; [done|]. intros s.
    by apply get_system_info_cached.
  - destruct (get_system_info_fresh (fun _ => True) self w Hinfo I)
      as (w' & log & info & Heq & _ & _).
    { by apply probe_system_keeps. }
    exists w', log. eexists. exists info. split; [exact Heq|].
    split; [done|]. intros s. by apply get_system_info_cached.
Qed.

(** X12: the information stays within its bounds: if what the instance
    holds (if anything) lists at most twenty maps of each kind and, of the
    fixed lists of GDAL tools, packages and system tools, selections in
    their order, so does what [get_system_info] returns and stores,
    whatever the session and the machine answer; in particular no tool is
    listed twice. *)
Theorem system_info_within_bounds {World Num : Type} `{Platform World Num}
  (self : Addon Num) (w : World) :
  (forall i, system_info self = Some i -> within_bounds i) ->
  exists w1 log self1 info,
    get_system_info self (w, tt) = ((w1, tt), log, inr (self1, info))
    /\ within_bounds info
    /\ (forall i, system_info self1 = Some i -> within_bounds i)
    /\ NoDup (gdal_tools info)
    /\ NoDup (system_tools info).
Proof.
  intros Hself.
  assert (forall i : SystemInfo Num, within_bounds i ->
            NoDup (gdal_tools i) /\ NoDup (system_tools i)) as Hnodup.
  { intros i (_ & _ & _ & Hg & _ & Hs). split.
    - eapply sublist_NoDup; [apply common_tools_NoDup|exact Hg].
    - eapply sublist_NoDup; [apply probed_tools_NoDup|exact Hs]. }
  destruct (system_info self) as [info|] eqn:Hinfo.
  - exists w, [], self, info.
    rewrite (get_system_info_cached self info (w, tt) Hinfo).
    specialize (Hself info eq_refl). destruct (Hnodup info Hself).
    split; [done|]. split; [done|]. split; [|done].
    intros i Hi. rewrite Hinfo in Hi. by injection Hi as <-.
  - assert (keeps within_bounds probe_system (w, default_info)) as Hkeep.
    { apply probe_system_keeps;
        try (intros ? i (? & ? & ? & ? & ? & ?); by repeat split);
        try (intros ? i ? (? & ? & ? & ? & ? & ?); by repeat split);
        try apply default_info_within_bounds;
        intros l i (? & ? & ? & ? & ? & ?); repeat split; try done;
        simpl; rewrite length_take; lia. }
    destruct (get_system_info_fresh within_bounds self w Hinfo
                default_info_within_bounds Hkeep)
      as (w' & log & info & Heq & _ & Hbounds).
    destruct (Hnodup info Hbounds).
    exists w', log. eexists. exists info. split; [exact Heq|].
    split; [done|]. split; [|done]. by intros i [= <-].
Qed.

Lemma system_info_within_bounds_witness :
  exists w1 log self1 (info : SystemInfo Z),
    get_system_info new_addon (0%nat, tt) = ((w1, tt), log, inr (self1, info))
    /\ within_bounds info
    /\ (forall i, system_info self1 = Some i -> within_bounds i)
    /\ NoDup (gdal_tools info)
    /\ NoDup (system_tools info).
Proof.
  apply (system_info_within_bounds new_addon 0%nat).
  intros i Hi. discriminate Hi.
Defined.

(** ** How a first call of [get_system_info] runs *)

Section SystemInfoRuns.

Context {World Num : Type} `{Platform World Num}.

Lemma bind_raises {St Ev Err A B}
  (m : Sc.M (St := St) (Ev := Ev) (Err := Err) A) (f : A -> Sc.M B)
  s s1 l1 e :
  m s = (s1, l1, inl e) -> Sc.bind m f s = (s1, l1, inl e).
Proof. intros Hm. unfold Sc.bind. by rewrite Hm. Qed.

Lemma bind_returns {St Ev Err A B}
  (m : Sc.M (St := St) (Ev := Ev) (Err := Err) A) (f : A -> Sc.M B)
  s s1 l1 a s2 l2 r :
  m s = (s1, l1, inr a) ->
  f a s1 = (s2, l2, r) ->
  Sc.bind m f s = (s2, l1 ++ l2, r).
Proof. intros Hm Hf. unfold Sc.bind. by rewrite Hm, Hf. Qed.

Lemma keeps_run {L Ev Err A : Type} (I : L -> Prop)
  (m : Sc.M (St := World * L) (Ev := Ev) (Err := Err) A) s s' log r :
  keeps I m s -> m s = (s', log, r) -> I (snd s').
Proof. unfold keeps, post. intros Hk Heq. rewrite Heq in Hk. by destruct r. Qed.

(** The GRASS part either stops at one of its two questions, with [info]
    untouched, or records a version. *)
Lemma probe_grass_info_cases (w : World) (i : SystemInfo Num) :
  (exists w' log e,
      probe_grass_info (w, i) = ((w', i), log, inl e)
      /\ (log = [AskGisenv] \/ log = [AskGisenv; AskVersion]))
  \/ (exists w' i' v,
        probe_grass_info (w, i) = ((w', i'), [AskGisenv; AskVersion], inr tt)
        /\ grass_version i' = Some v).
Proof.
  unfold probe_grass_info, Sc.bind, ask, item, set_info, Sc.modify, Sc.ret,
    Sc.raise.
  simpl. destruct (gs_gisenv w) as [w1 [e|env]]; simpl.
  { left. exists w1, [AskGisenv], e. split; [done|by left]. }
  destruct (gs_version w1) as [w2 [e|ver]]; simpl.
  { left. exists w2, [AskGisenv; AskVersion], e. split; [done|by right]. }
  destruct (ver !! "version") as [v|]; simpl.
  - right. by eexists w2, _, v.
  - left. eexists w2, [AskGisenv; AskVersion], _. split; [done|by right].
Qed.

Lemma probe_grass_info_returns (w w1 w2 : World) env ver v
  (i : SystemInfo Num) :
  gs_gisenv w = (w1, inr env) ->
  gs_version w1 = (w2, inr ver) ->
  ver !! "version" = Some v ->
  probe_grass_info (w, i)
  = ((w2,
      with_mapset (env !! "MAPSET")
        (with_location (env !! "LOCATION_NAME")
           (with_db (env !! "GISDBASE") (with_version (Some v) i)))),
     [AskGisenv; AskVersion], inr tt).
Proof.
  intros Hg Hv Hk.
  unfold probe_grass_info, Sc.bind, ask, item, set_info, Sc.modify, Sc.ret.
  simpl. rewrite Hg. simpl. rewrite Hv. simpl. by rewrite Hk.
Qed.

Lemma probe_region_failed (w w1 : World) e (i : SystemInfo Num) :
  gs_region w = (w1, inl e) ->
  probe_region (w, i) = ((w1, i), [AskRegion], inr tt).
Proof.
  intros Hr. unfold probe_region, Sc.try_except, Sc.bind, ask, Sc.ret.
  simpl. by rewrite Hr.
Qed.

(** The maps part never raises and starts by asking for the raster maps. *)
Lemma probe_maps_first (s : World * SystemInfo Num) :
  exists s' log,
    probe_maps s = (s', AskListStrings "raster" :: log, inr tt).
Proof.
  unfold probe_maps, Sc.try_except, Sc.bind, ask, set_info, Sc.modify, Sc.ret.
  simpl. destruct (gs_list_strings "raster" (fst s)) as [w1 [e|rasters]]; simpl.
  { by eexists _, _. }
  destruct (gs_list_strings "vector" w1) as [w2 [e|vectors]]; simpl;
    by eexists _, _.
Qed.

(** What follows the GRASS part keeps an invariant that the assignments
    to the region, the maps and the three lists respect. *)
Lemma after_grass_info_keeps (I : SystemInfo Num -> Prop)
  (s : World * SystemInfo Num) :
  (forall v i, I i -> I (with_region (Some v) i)) ->
  (forall l i, I i -> I (with_rasters l i)) ->
  (forall l i, I i -> I (with_vectors l i)) ->
  (forall l i, I i -> I (with_gdal_tools l i)) ->
  (forall l i, I i -> I (with_python_packages l i)) ->
  (forall l i, I i -> I (with_system_tools l i)) ->
  I (snd s) ->
  keeps I
    (Sc.bind probe_region (fun _ =>
       Sc.bind probe_maps (fun _ => probe_programs))) s.
Proof.
  intros Hregion Hrasters Hvectors Hgdal Hpython Htools Hs.
  apply keeps_bind; [by apply probe_region_keeps|]. intros s1 ? H1.
  apply keeps_bind; [apply probe_maps_keeps; auto|]. intros s2 ? H2.
  apply probe_programs_keeps; auto.
Qed.

End SystemInfoRuns.

(** X13: when the first call of [get_system_info] leaves the GRASS version
    unknown, nothing at all has been recorded: the session could not be
    read ([gs.gisenv] or [gs.version] raised, or the version had no
    ['version']), a warning was printed, and the machine was not asked for
    any tool or package, so the lists of tools are empty whatever is
    installed. *)
Theorem unknown_version_nothing_recorded {World Num : Type}
  `{Platform World Num} (self : Addon Num) (w : World) :
  system_info self = None ->
  exists w1 log self1 info,
    get_system_info self (w, tt) = ((w1, tt), log, inr (self1, info))
    /\ system_info self1 = Some info
    /\ (grass_version info = None ->
        info = default_info
        /\ exists e,
             log = [AskGisenv; WarnSystemInfo e]
             \/ log = [AskGisenv; AskVersion; WarnSystemInfo e]).
Proof.
  intros Hfresh. unfold get_system_info. rewrite Hfresh.
  unfold Sc.try_except, probe_system. simpl.
  destruct (probe_grass_info_cases w default_info)
    as [(w' & log & e & Heq & Hlog)|(w' & i' & v & Heq & Hv)].
  - rewrite (bind_raises _ _ _ _ _ _ Heq). simpl.
    eexists _, _, _, _. split; [reflexivity|]. split; [done|].
    intros _. split; [done|]. exists (str_of e).
    destruct Hlog as [-> | ->]; [by left|by right].
  - pose proof (after_grass_info_keeps
                  (fun i => grass_version i = Some v) (w', i')) as Hkeep.
    unfold keeps, post in Hkeep.
    destruct (Sc.bind probe_region _ (w', i')) as [[[w2 i2] l2] r] eqn:Hrest.
    rewrite (bind_returns _ _ _ _ _ _ _ _ _ Heq Hrest).
    simpl in Hkeep.
    assert (grass_version i2 = Some v) as Hv2.
    { destruct r; by apply Hkeep. }
    destruct r as [e|[]]; simpl; eexists _, _, _, _;
      (split; [reflexivity|]); (split; [done|]); intros Hnone; congruence.
Qed.

Lemma unknown_version_nothing_recorded_witness :
  exists w1 log self1 (info : SystemInfo Z),
    get_system_info new_addon (100%nat, tt) = ((w1, tt), log, inr (self1, info))
    /\ system_info self1 = Some info
    /\ (grass_version info = None ->
        info = default_info
        /\ exists e,
             log = [AskGisenv; WarnSystemInfo e]
             \/ log = [AskGisenv; AskVersion; WarnSystemInfo e]).
Proof.
  apply (unknown_version_nothing_recorded new_addon 100%nat). reflexivity.
Defined.

(** X14: a region that cannot be read is passed over in silence.  When the
    session answers [gs.gisenv] and [gs.version] but [gs.region] raises,
    the first call of [get_system_info] prints nothing about it and goes on
    to the raster maps; what it returns has the version, the database, the
    location and the mapset of the session, and [None] for the region. *)
Theorem region_failure_is_silent {World Num : Type} `{Platform World Num}
  (self : Addon Num) (w w1 w2 w3 : World)
  (env ver : gmap string string) (v : string) (e : exception) :
  system_info self = None ->
  gs_gisenv w = (w1, inr env) ->
  gs_version w1 = (w2, inr ver) ->
  ver !! "version" = Some v ->
  gs_region w2 = (w3, inl e) ->
  exists w' log self1 info,
    get_system_info self (w, tt)
    = ((w', tt),
       [AskGisenv; AskVersion; AskRegion; AskListStrings "raster"] ++ log,
       inr (self1, info))
    /\ grass_region info = None
    /\ grass_version info = Some v
    /\ grass_db info = env !! "GISDBASE"
    /\ grass_location info = env !! "LOCATION_NAME"
    /\ grass_mapset info = env !! "MAPSET".
Proof.
  intros Hfresh Hg Hv Hk Hr.
  pose proof (probe_grass_info_returns w w1 w2 env ver v default_info
                Hg Hv Hk) as Hgrass.
  set (i1 := with_mapset _ _) in Hgrass.
  pose proof (probe_region_failed w2 w3 e i1 Hr) as Hregion.
  destruct (probe_maps_first (w3, i1)) as ([w4 i4] & lm & Hmaps).
  destruct (probe_programs (w4, i4)) as [[[w5 i5] lp] r] eqn:Hprograms.
  set (I := fun i : SystemInfo Num =>
              grass_region i = None
              /\ grass_version i = Some v
              /\ grass_db i = env !! "GISDBASE"
              /\ grass_location i = env !! "LOCATION_NAME"
              /\ grass_mapset i = env !! "MAPSET").
  assert (I i1) as Hi1 by done.
  assert (I i4) as Hi4.
  { refine (keeps_run I _ _ _ _ _ _ Hmaps).
    apply probe_maps_keeps; [by intros ? ? (? & ? & ? & ? & ?)..|done]. }
  assert (I i5) as Hi5.
  { refine (keeps_run I _ _ _ _ _ _ Hprograms).
    apply probe_programs_keeps;
      [by intros ? ? ? (? & ? & ? & ? & ?)..|done]. }
  assert (probe_system (w, default_info)
          = ((w5, i5),
             [AskGisenv; AskVersion] ++ [AskRegion]
               ++ (AskListStrings "raster" :: lm) ++ lp, r)) as Hrun.
  { unfold probe_system.
    apply (bind_returns probe_grass_info _ _ _ _ tt _ _ _ Hgrass).
    apply (bind_returns probe_region _ _ _ _ tt _ _ _ Hregion).
    apply (bind_returns probe_maps _ _ _ _ tt _ _ _ Hmaps). exact Hprograms. }
  destruct Hi5 as (? & ? & ? & ? & ?).
  unfold get_system_info. rewrite Hfresh.
  unfold Sc.try_except. cbn [fst snd]. rewrite Hrun.
  destruct r as [e'|[]]; simpl; by eexists _, _, _, _.
Qed.

Lemma region_failure_is_silent_witness :
  let env : gmap string string :=
    {[ "GISDBASE" := "/data/grass"; "LOCATION_NAME" := "nc_spm";
       "MAPSET" := "user1" ]} in
  exists w' log self1 (info : SystemInfo Z),
    get_system_info new_addon (0%nat, tt)
    = ((w', tt),
       [AskGisenv; AskVersion; AskRegion; AskListStrings "raster"] ++ log,
       inr (self1, info))
    /\ grass_region info = None
    /\ grass_version info = Some "8.3.2"
    /\ grass_db info = env !! "GISDBASE"
    /\ grass_location info = env !! "LOCATION_NAME"
    /\ grass_mapset info = env !! "MAPSET".
Proof.
  intros env.
  apply (region_failure_is_silent new_addon 0%nat 1%nat 2%nat 3%nat
           env {[ "version" := "8.3.2" ]} "8.3.2"
           (CalledModuleError "g.region failed"));
    [reflexivity|reflexivity|reflexivity|by vm_compute|reflexivity].
Defined.

(** ** [get_gdal_tools] on a machine whose answers do not change *)

Lemma collect_which {World Num L : Type} `{Platform World Num}
  (path : string -> option string) :
  (forall tool w, exists w', shutil_which tool w = (w', inr (path tool))) ->
  forall l acc (s : World * L),
    exists w',
      Sc.collect l which acc s
      = ((w', snd s), map AskWhich l,
         inr (acc ++ List.filter (fun tool => found (path tool)) l)).
Proof.
  intros Hpath. induction l as [|tool l IH]; intros acc [w x]; simpl.
  - exists w. unfold Sc.ret. by rewrite app_nil_r.
  - destruct (Hpath tool w) as [w1 Hw].
    destruct (IH (if found (path tool) then acc ++ [tool] else acc) (w1, x))
      as [w2 Hrest].
    exists w2. unfold Sc.bind at 1. unfold which at 1.
    unfold Sc.bind at 1. unfold ask, Sc.ret. simpl. rewrite Hw. simpl.
    simpl in Hrest. rewrite Hrest. simpl.
    destruct (found (path tool)); [by rewrite <- app_assoc|done].
Qed.

(** X15: on a machine where [shutil.which] never raises and answers the
    same for a tool whenever it is asked, [get_gdal_tools] asks once for
    each of the 33 tools, in the order of the list, and returns exactly
    the tools that were found, in that order. *)
Theorem gdal_tools_are_the_installed_ones {World Num L : Type}
  `{Platform World Num} (path : string -> option string) (s : World * L) :
  (forall tool w, exists w', shutil_which tool w = (w', inr (path tool))) ->
  exists w',
    get_gdal_tools s
    = ((w', snd s), map AskWhich common_tools,
       inr (List.filter (fun tool => found (path tool)) common_tools))
    /\ forall tool,
         tool ∈ List.filter (fun tool => found (path tool)) common_tools
         <-> tool ∈ common_tools /\ exists p, path tool = Some p /\ p <> "".
Proof.
  intros Hpath.
  destruct (collect_which path Hpath common_tools [] s) as [w' Heq].
  rewrite app_nil_l in Heq.
  exists w'. split.
  { unfold get_gdal_tools. by rewrite Heq. }
  intros tool. rewrite !list_elem_of_In. rewrite filter_In. unfold found.
  split.
  - intros [Hin Hfound]. split; [exact Hin|].
    destruct (path tool) as [p|]; [|discriminate Hfound].
    exists p. split; [reflexivity|]. intros ->. discriminate Hfound.
  - intros [Hin (p & -> & Hp)]. split; [exact Hin|].
    destruct (String.eqb_spec p ""); [contradiction|reflexivity].
Qed.

Lemma gdal_tools_are_the_installed_ones_witness :
  exists w',
    get_gdal_tools (0%nat, tt)
    = ((w', snd (0%nat, tt)), map AskWhich common_tools,
       inr (List.filter
              (fun tool =>
                 found (if String.eqb tool "gdalinfo"
                        then Some "/usr/bin/gdalinfo"
                        else if String.eqb tool "tar" then Some "/usr/bin/tar"
                        else None)) common_tools))
    /\ forall tool,
         tool ∈ List.filter
                  (fun tool =>
                     found (if String.eqb tool "gdalinfo"
                            then Some "/usr/bin/gdalinfo"
                            else if String.eqb tool "tar"
                                 then Some "/usr/bin/tar"
                                 else None)) common_tools
         <-> tool ∈ common_tools
             /\ exists p,
                  (if String.eqb tool "gdalinfo" then Some "/usr/bin/gdalinfo"
                   else if String.eqb tool "tar" then Some "/usr/bin/tar"
                   else None) = Some p /\ p <> "".
Proof.
  apply (gdal_tools_are_the_installed_ones (World := nat) (Num := Z)
           (fun tool =>
              if String.eqb tool "gdalinfo" then Some "/usr/bin/gdalinfo"
              else if String.eqb tool "tar" then Some "/usr/bin/tar"
              else None) (0%nat, tt)).
  intros tool w. by exists (S w).
Defined.
